(** * The Poisson scan-statistic kernel of [PBPOIabstract.h]

    A shallow embedding of the class [PBPOIabstract] (population-based
    Poisson scan statistic): the aggregation done by the constructor, the
    per-candidate computation [calculate], the three storage functions
    [store_all], [store_max], [store_sim] and the export [get_scan].

    Numbers are modelled as the C++ code has them:
    - [arma::uword] is an unsigned machine word of [w] bits, a [Z] reduced
      modulo [2^w]; the width is left open ([32] under RcppArmadillo's
      default configuration, [64] otherwise);
    - [int] is a 32-bit two's complement integer, a [Z] in
      [[-2^31, 2^31)];
    - [double] is modelled by [double] below: IEEE-754 special values
      (NaN and the two infinities) together with exact real numbers for
      the finite values.  Rounding of finite results and their overflow
      to an infinity are not modelled, and a zero is the positive zero.
      The properties of computed values stated below are therefore kept
      to what does not depend on rounding or overflow: which values are
      NaN or infinite, how values compare, and which expression the code
      evaluates. *)

From Stdlib Require Import ZArith Reals Lra Lia Bool.
From stdpp Require Import base option list strings.

Local Open Scope Z_scope.

(** ** The [double] model *)

Inductive double : Type :=
  | DNaN : double
  | DInf (negative : bool) : double
  | DFin (x : R) : double.

(** [R_NegInf] of the R API. *)
Definition R_NegInf : double := DInf true.
Definition R_PosInf : double := DInf false.

Definition is_finite (d : double) : bool :=
  match d with DFin _ => true | _ => false end.

Definition is_nan (d : double) : bool :=
  match d with DNaN => true | _ => false end.

(** Sign bit of a finite real (zero counts as positive). *)
Definition Rneg (x : R) : bool := if Rlt_dec x 0 then true else false.

Definition Rzero (x : R) : bool := if Req_dec_T x 0 then true else false.

Definition dneg (a : double) : double :=
  match a with
  | DNaN => DNaN
  | DInf s => DInf (negb s)
  | DFin x => DFin (- x)
  end.

Definition dadd (a b : double) : double :=
  match a, b with
  | DNaN, _ | _, DNaN => DNaN
  | DInf s, DInf t => if eqb s t then DInf s else DNaN
  | DInf s, DFin _ => DInf s
  | DFin _, DInf t => DInf t
  | DFin x, DFin y => DFin (x + y)
  end.

Definition dsub (a b : double) : double := dadd a (dneg b).

Definition dmul (a b : double) : double :=
  match a, b with
  | DNaN, _ | _, DNaN => DNaN
  | DInf s, DInf t => DInf (xorb s t)
  | DInf s, DFin y => if Rzero y then DNaN else DInf (xorb s (Rneg y))
  | DFin x, DInf t => if Rzero x then DNaN else DInf (xorb (Rneg x) t)
  | DFin x, DFin y => DFin (x * y)
  end.

Definition ddiv (a b : double) : double :=
  match a, b with
  | DNaN, _ | _, DNaN => DNaN
  | DInf _, DInf _ => DNaN
  | DInf s, DFin y => DInf (xorb s (Rneg y))
  | DFin _, DInf _ => DFin 0
  | DFin x, DFin y =>
      if Rzero y then (if Rzero x then DNaN else DInf (Rneg x))
      else DFin (x / y)
  end.

(** [std::log]: the logarithm of zero is minus infinity, the logarithm of
    a negative number is NaN. *)
Definition dlog (a : double) : double :=
  match a with
  | DNaN => DNaN
  | DInf s => if s then DNaN else DInf false
  | DFin x =>
      if Rlt_dec 0 x then DFin (ln x)
      else if Rzero x then DInf true else DNaN
  end.

(** The comparison [a > b]: false as soon as one side is NaN. *)
Definition dgt (a b : double) : bool :=
  match a, b with
  | DNaN, _ | _, DNaN => false
  | DInf s, DInf t => negb s && t
  | DInf s, DFin _ => negb s
  | DFin _, DInf t => t
  | DFin x, DFin y => if Rlt_dec y x then true else false
  end.

(** The comparison [a <= b], used to state properties only. *)
Definition dle (a b : double) : bool :=
  match a, b with
  | DNaN, _ | _, DNaN => false
  | DInf s, DInf t => s || negb t
  | DInf s, DFin _ => s
  | DFin _, DInf t => negb t
  | DFin x, DFin y => if Rle_dec x y then true else false
  end.

(** ** Machine integers *)

Definition INT_MIN : Z := - 2 ^ 31.
Definition INT_MAX : Z := 2 ^ 31 - 1.

(** Conversion of an unsigned value to [int]: two's complement. *)
Definition to_int (z : Z) : Z := (z + 2 ^ 31) mod 2 ^ 32 - 2 ^ 31.

(** [a + b] on [int]: signed overflow has no defined result. *)
Definition int_add (a b : Z) : option Z :=
  if (INT_MIN <=? a + b) && (a + b <=? INT_MAX) then Some (a + b) else None.

(** Conversion of an integer to [double]. *)
Definition of_Z (z : Z) : double := DFin (IZR z).

(** ** Armadillo vectors and matrices

    A matrix is stored column by column, as Armadillo does: a list of
    columns, every column the list of its entries from the first row to
    the last.  Rows are time steps and columns are locations.  Index
    vectors ([arma::uvec] used for indexing) hold natural numbers. *)

Definition umat : Type := list (list Z).
Definition mat : Type := list (list double).
Definition uvec : Type := list nat.

(** Unchecked element access [v[i]] with an [int] index: outside the
    vector the access has no defined result. *)
Definition vec_get {A} (l : list A) (i : Z) : option A :=
  if bool_decide (0 <= i) then l !! Z.to_nat i else None.

Definition vec_set {A} (l : list A) (i : Z) (v : A) : option (list A) :=
  if bool_decide (0 <= i < Z.of_nat (length l))
  then Some (<[Z.to_nat i := v]> l) else None.

(** [v.tail(1)]: the one-element vector holding the last entry; Armadillo
    raises an error on an empty vector. *)
Definition tail1 (v : uvec) : option uvec := r ← last v; Some [r].

(** [m.submat(rows, cols)]: the entries at the given rows and columns,
    column by column; Armadillo raises an error for an index outside the
    matrix. *)
Definition submat {A} (m : list (list A)) (rows cols : uvec)
  : option (list (list A)) :=
  mapM (fun c => col ← m !! c; mapM (fun r => col !! r) rows) cols.

(** [arma::accu] and [arma::cumsum] on [double]. *)
Definition accu_d (m : mat) : double := foldl dadd (DFin 0) (concat m).

Fixpoint cumsum_col_d (acc : double) (col : list double) : list double :=
  match col with
  | [] => []
  | x :: rest => let acc' := dadd acc x in acc' :: cumsum_col_d acc' rest
  end.

Definition cumsum_d (m : mat) : mat := map (cumsum_col_d (DFin 0)) m.

Section Word.

(** Width of [arma::uword] in bits. *)
Variable w : Z.

Definition wrap (z : Z) : Z := z mod 2 ^ w.

(** [arma::accu] and [arma::cumsum] on [arma::uword]. *)
Definition accu_u (m : umat) : Z :=
  foldl (fun acc x => wrap (acc + x)) 0 (concat m).

Fixpoint cumsum_col_u (acc : Z) (col : list Z) : list Z :=
  match col with
  | [] => []
  | x :: rest => let acc' := wrap (acc + x) in acc' :: cumsum_col_u acc' rest
  end.

Definition cumsum_u (m : umat) : umat := map (cumsum_col_u 0) m.

(** ** The object state *)

(** The member [store]: which of the three storage functions is called. *)
Inductive store_ptr : Type := Store_all | Store_max | Store_sim.

(** The members of [PBPOIabstract] that this file reads or writes.  The
    ones declared by the base class [USTscan] are [m_counts],
    [m_out_length], [m_num_mcsim], [m_mcsim_index], [m_scores],
    [m_zone_numbers], [m_durations], [sim_scores], [sim_zone_numbers] and
    [sim_durations]; zone numbers and durations are integer columns. *)
Record PBPOIabstract : Type := mkPBPOI {
  m_counts : umat;
  m_baselines : mat;
  m_baselines_orig : mat;
  m_total_count : Z;
  m_out_length : nat;
  m_num_mcsim : nat;
  m_mcsim_index : Z;
  m_scores : list double;
  m_relrisk_in : list double;
  m_relrisk_out : list double;
  m_zone_numbers : list Z;
  m_durations : list Z;
  sim_scores : list double;
  sim_relrisk_in : list double;
  sim_relrisk_out : list double;
  sim_zone_numbers : list Z;
  sim_durations : list Z;
  store : store_ptr
}.

(** [v.set_size(n)]: [n] entries whose values are not initialised;
    [fresh] stands for whatever the allocated memory holds. *)
Definition set_size (fresh : nat -> double) (n : nat) : list double :=
  map fresh (seq 0 n).

(** The constructor body.  [base] is the object as the base-class
    constructor [USTscan(counts, zones, zone_lengths, store_everything,
    num_mcsim)] leaves it. *)
Definition PBPOIabstract_new (fresh : nat -> double)
    (counts : umat) (baselines : mat) (store_everything : bool)
    (base : PBPOIabstract) : PBPOIabstract :=
  {| m_counts := cumsum_u counts;
     m_baselines := cumsum_d baselines;
     m_baselines_orig := baselines;
     m_total_count := to_int (accu_u counts);
     m_out_length := m_out_length base;
     m_num_mcsim := m_num_mcsim base;
     m_mcsim_index := m_mcsim_index base;
     m_scores := m_scores base;
     m_relrisk_in := set_size fresh (m_out_length base);
     m_relrisk_out := set_size fresh (m_out_length base);
     m_zone_numbers := m_zone_numbers base;
     m_durations := m_durations base;
     sim_scores := sim_scores base;
     sim_relrisk_in := set_size fresh (m_num_mcsim base);
     sim_relrisk_out := set_size fresh (m_num_mcsim base);
     sim_zone_numbers := sim_zone_numbers base;
     sim_durations := sim_durations base;
     store := if store_everything then Store_all else Store_max |}.

(** ** Storage functions *)

Definition store_all (st : PBPOIabstract) (storage_index : Z)
    (score q_in q_out : double) (zone_nr duration : Z)
  : option PBPOIabstract :=
  sc ← vec_set (m_scores st) storage_index score;
  ri ← vec_set (m_relrisk_in st) storage_index q_in;
  ro ← vec_set (m_relrisk_out st) storage_index q_out;
  zn ← vec_set (m_zone_numbers st) storage_index zone_nr;
  du ← vec_set (m_durations st) storage_index duration;
  Some (mkPBPOI (m_counts st) (m_baselines st) (m_baselines_orig st)
          (m_total_count st) (m_out_length st) (m_num_mcsim st)
          (m_mcsim_index st) sc ri ro zn du
          (sim_scores st) (sim_relrisk_in st) (sim_relrisk_out st)
          (sim_zone_numbers st) (sim_durations st) (store st)).

Definition store_max (st : PBPOIabstract) (storage_index : Z)
    (score q_in q_out : double) (zone_nr duration : Z)
  : option PBPOIabstract :=
  cur ← vec_get (m_scores st) 0;
  if dgt score cur then
    sc ← vec_set (m_scores st) 0 score;
    ri ← vec_set (m_relrisk_in st) 0 q_in;
    ro ← vec_set (m_relrisk_out st) 0 q_out;
    zn ← vec_set (m_zone_numbers st) 0 zone_nr;
    du ← vec_set (m_durations st) 0 duration;
    Some (mkPBPOI (m_counts st) (m_baselines st) (m_baselines_orig st)
            (m_total_count st) (m_out_length st) (m_num_mcsim st)
            (m_mcsim_index st) sc ri ro zn du
            (sim_scores st) (sim_relrisk_in st) (sim_relrisk_out st)
            (sim_zone_numbers st) (sim_durations st) (store st))
  else Some st.

Definition store_sim (st : PBPOIabstract) (storage_index : Z)
    (score q_in q_out : double) (zone_nr duration : Z)
  : option PBPOIabstract :=
  cur ← vec_get (sim_scores st) (m_mcsim_index st);
  if dgt score cur then
    sc ← vec_set (sim_scores st) (m_mcsim_index st) score;
    ri ← vec_set (sim_relrisk_in st) (m_mcsim_index st) q_in;
    ro ← vec_set (sim_relrisk_out st) (m_mcsim_index st) q_out;
    zn ← vec_set (sim_zone_numbers st) (m_mcsim_index st) zone_nr;
    du ← vec_set (sim_durations st) (m_mcsim_index st) duration;
    Some (mkPBPOI (m_counts st) (m_baselines st) (m_baselines_orig st)
            (m_total_count st) (m_out_length st) (m_num_mcsim st)
            (m_mcsim_index st)
            (m_scores st) (m_relrisk_in st) (m_relrisk_out st)
            (m_zone_numbers st) (m_durations st)
            sc ri ro zn du (store st))
  else Some st.

(** The member function a value of [store] points to, and the call
    [(this->*store)(...)]. *)
Definition store_fun (p : store_ptr) :
    PBPOIabstract -> Z -> double -> double -> double -> Z -> Z ->
    option PBPOIabstract :=
  match p with
  | Store_all => store_all
  | Store_max => store_max
  | Store_sim => store_sim
  end.

Definition call_store (st : PBPOIabstract) :
    Z -> double -> double -> double -> Z -> Z -> option PBPOIabstract :=
  store_fun (store st) st.

Definition set_sim_store_fun (st : PBPOIabstract) : PBPOIabstract :=
  mkPBPOI (m_counts st) (m_baselines st) (m_baselines_orig st)
    (m_total_count st) (m_out_length st) (m_num_mcsim st)
    (m_mcsim_index st)
    (m_scores st) (m_relrisk_in st) (m_relrisk_out st)
    (m_zone_numbers st) (m_durations st)
    (sim_scores st) (sim_relrisk_in st) (sim_relrisk_out st)
    (sim_zone_numbers st) (sim_durations st) Store_sim.

Definition draw_sample (row col : Z) : Z := 1.

(** ** The per-candidate computation *)

(** The locals [risk_in], [risk_out] and [score] of [calculate], as
    functions of the total count, the in-zone count [C] (an
    [arma::uword]) and the in-zone baseline [B] (a [double]).
    [m_total_count - C] is computed on unsigned words. *)
Definition risk_in (C : Z) (B : double) : double := ddiv (of_Z C) B.

Definition risk_out (total C : Z) (B : double) : double :=
  if dgt (of_Z total) B
  then ddiv (of_Z (wrap (total - C))) (dsub (of_Z total) B)
  else DFin 1.

Definition score (total C : Z) (B : double) : double :=
  if dgt (of_Z C) B
  then dadd (dmul (of_Z C) (dlog (risk_in C B)))
            (dmul (of_Z (wrap (total - C))) (dlog (risk_out total C B)))
  else R_NegInf.

Definition calculate (st : PBPOIabstract) (storage_index zone_nr duration : Z)
    (current_zone current_rows : uvec) : option PBPOIabstract :=
  row_idx ← tail1 current_rows;
  cs ← submat (m_counts st) row_idx current_zone;
  bs ← submat (m_baselines st) row_idx current_zone;
  let C := accu_u cs in
  let B := accu_d bs in
  zn ← int_add zone_nr 1;
  du ← int_add duration 1;
  call_store st storage_index (score (m_total_count st) C B)
    (risk_in C B) (risk_out (m_total_count st) C B) zn du.

End Word.

(** ** Retrieval functions *)

(** A column of an [Rcpp::DataFrame]. *)
Inductive column : Type :=
  | IntegerVector (v : list Z)
  | NumericVector (v : list double).

Definition DataFrame : Type := list (string * column).

Definition get_scan (st : PBPOIabstract) : DataFrame :=
  [ ("zone"%string, IntegerVector (m_zone_numbers st));
    ("duration"%string, IntegerVector (m_durations st));
    ("score"%string, NumericVector (m_scores st));
    ("relrisk_in"%string, NumericVector (m_relrisk_in st));
    ("relrisk_out"%string, NumericVector (m_relrisk_out st)) ].

Definition get_mcsim (st : PBPOIabstract) : DataFrame :=
  [ ("zone"%string, IntegerVector (sim_zone_numbers st));
    ("duration"%string, IntegerVector (sim_durations st));
    ("score"%string, NumericVector (sim_scores st));
    ("relrisk_in"%string, NumericVector (sim_relrisk_in st));
    ("relrisk_out"%string, NumericVector (sim_relrisk_out st)) ].

(** One row of an exported table. *)
Record Row : Type := mkRow {
  zone : Z;
  duration : Z;
  row_score : double;
  relrisk_in : double;
  relrisk_out : double
}.

Definition int_column (df : DataFrame) (name : string)
  : option (list Z) :=
  match find (fun p => String.eqb (fst p) name) df with
  | Some (_, IntegerVector v) => Some v
  | _ => None
  end.

Definition num_column (df : DataFrame) (name : string)
  : option (list double) :=
  match find (fun p => String.eqb (fst p) name) df with
  | Some (_, NumericVector v) => Some v
  | _ => None
  end.

(** Row [i] of a table with the five columns of [get_scan]. *)
Definition df_row (df : DataFrame) (i : nat) : option Row :=
  zs ← int_column df "zone"; z ← zs !! i;
  ds ← int_column df "duration"; d ← ds !! i;
  ss ← num_column df "score"; s ← ss !! i;
  rs ← num_column df "relrisk_in"; a ← rs !! i;
  os ← num_column df "relrisk_out"; b ← os !! i;
  Some (mkRow z d s a b).

(** ** Sequences of calls

    The iteration engine of the base class calls [calculate] once per
    candidate.  A candidate is the argument list of one call. *)

Record candidate : Type := mkCandidate {
  storage_index : Z;
  zone_nr : Z;
  cand_duration : Z;
  current_zone : uvec;
  current_rows : uvec
}.

Definition calculate_candidate (w : Z) (st : PBPOIabstract) (c : candidate)
  : option PBPOIabstract :=
  calculate w st (storage_index c) (zone_nr c) (cand_duration c)
    (current_zone c) (current_rows c).

(** Processing the candidates of a list one after the other. *)
Fixpoint scan (w : Z) (st : PBPOIabstract) (cs : list candidate)
  : option PBPOIabstract :=
  match cs with
  | [] => Some st
  | c :: rest => st' ← calculate_candidate w st c; scan w st' rest
  end.

(** The in-zone count [C] and baseline [B] that [calculate] computes for a
    candidate, and the row it passes to the storage function. *)
Definition candidate_C (w : Z) (st : PBPOIabstract) (c : candidate)
  : option Z :=
  row_idx ← tail1 (current_rows c);
  cs ← submat (m_counts st) row_idx (current_zone c);
  Some (accu_u w cs).

Definition candidate_B (st : PBPOIabstract) (c : candidate)
  : option double :=
  row_idx ← tail1 (current_rows c);
  bs ← submat (m_baselines st) row_idx (current_zone c);
  Some (accu_d bs).

Definition candidate_row (w : Z) (st : PBPOIabstract) (c : candidate)
  : option Row :=
  C ← candidate_C w st c;
  B ← candidate_B st c;
  zn ← int_add (zone_nr c) 1;
  du ← int_add (cand_duration c) 1;
  Some (mkRow zn du (score w (m_total_count st) C B) (risk_in C B)
          (risk_out w (m_total_count st) C B)).

(** The rows held by the observed-data vectors and by the simulation
    vectors at one slot. *)
Definition obs_row (st : PBPOIabstract) (i : nat) : option Row :=
  z ← m_zone_numbers st !! i; d ← m_durations st !! i;
  s ← m_scores st !! i; a ← m_relrisk_in st !! i;
  b ← m_relrisk_out st !! i;
  Some (mkRow z d s a b).

Definition sim_row (st : PBPOIabstract) (i : nat) : option Row :=
  z ← sim_zone_numbers st !! i; d ← sim_durations st !! i;
  s ← sim_scores st !! i; a ← sim_relrisk_in st !! i;
  b ← sim_relrisk_out st !! i;
  Some (mkRow z d s a b).

(** A sequence of direct calls of one storage function. *)
Record store_call : Type := mkCall {
  call_index : Z;
  call_row : Row
}.

Definition apply_store
    (f : PBPOIabstract -> Z -> double -> double -> double -> Z -> Z ->
         option PBPOIabstract)
    (st : PBPOIabstract) (c : store_call) : option PBPOIabstract :=
  f st (call_index c) (row_score (call_row c)) (relrisk_in (call_row c))
    (relrisk_out (call_row c)) (zone (call_row c)) (duration (call_row c)).

Fixpoint store_seq
    (f : PBPOIabstract -> Z -> double -> double -> double -> Z -> Z ->
         option PBPOIabstract)
    (st : PBPOIabstract) (cs : list store_call) : option PBPOIabstract :=
  match cs with
  | [] => Some st
  | c :: rest => st' ← apply_store f st c; store_seq f st' rest
  end.

(** ** Auxiliary notions for the statements *)

(** The state in which slot [i] of the observed-data vectors holds the
    row [r]. *)
Definition write_obs (st : PBPOIabstract) (i : nat) (r : Row)
  : PBPOIabstract :=
  mkPBPOI (m_counts st) (m_baselines st) (m_baselines_orig st)
    (m_total_count st) (m_out_length st) (m_num_mcsim st)
    (m_mcsim_index st)
    (<[i := row_score r]> (m_scores st))
    (<[i := relrisk_in r]> (m_relrisk_in st))
    (<[i := relrisk_out r]> (m_relrisk_out st))
    (<[i := zone r]> (m_zone_numbers st))
    (<[i := duration r]> (m_durations st))
    (sim_scores st) (sim_relrisk_in st) (sim_relrisk_out st)
    (sim_zone_numbers st) (sim_durations st) (store st).

(** The same for the simulation vectors. *)
Definition write_sim (st : PBPOIabstract) (i : nat) (r : Row)
  : PBPOIabstract :=
  mkPBPOI (m_counts st) (m_baselines st) (m_baselines_orig st)
    (m_total_count st) (m_out_length st) (m_num_mcsim st)
    (m_mcsim_index st)
    (m_scores st) (m_relrisk_in st) (m_relrisk_out st)
    (m_zone_numbers st) (m_durations st)
    (<[i := row_score r]> (sim_scores st))
    (<[i := relrisk_in r]> (sim_relrisk_in st))
    (<[i := relrisk_out r]> (sim_relrisk_out st))
    (<[i := zone r]> (sim_zone_numbers st))
    (<[i := duration r]> (sim_durations st)) (store st).

(** The five observed-data vectors have [n] slots each. *)
Definition obs_slots (st : PBPOIabstract) (n : nat) : Prop :=
  length (m_scores st) = n /\ length (m_relrisk_in st) = n /\
  length (m_relrisk_out st) = n /\ length (m_zone_numbers st) = n /\
  length (m_durations st) = n.

Definition sim_slots (st : PBPOIabstract) (n : nat) : Prop :=
  length (sim_scores st) = n /\ length (sim_relrisk_in st) = n /\
  length (sim_relrisk_out st) = n /\ length (sim_zone_numbers st) = n /\
  length (sim_durations st) = n.

(** What the storage functions leave alone: the aggregated tables, the
    round index and the selected storage function. *)
Definition same_setup (st st' : PBPOIabstract) : Prop :=
  m_counts st' = m_counts st /\ m_baselines st' = m_baselines st /\
  m_baselines_orig st' = m_baselines_orig st /\
  m_total_count st' = m_total_count st /\
  m_out_length st' = m_out_length st /\ m_num_mcsim st' = m_num_mcsim st /\
  m_mcsim_index st' = m_mcsim_index st /\ store st' = store st.

(** The running maximum that a strict comparison retains, started from
    the row [r0] and fed the rows of a list in order. *)
Definition running_max (r0 : Row) (rows : list Row) : Row :=
  foldl (fun best r => if dgt (row_score r) (row_score best) then r else best)
    r0 rows.

(** The call of a storage function that [calculate] makes for a candidate
    whose computed row is [r]. *)
Definition call_of (c : candidate) (r : Row) : store_call :=
  mkCall (storage_index c) r.

(** The exact sum of the entries of a matrix, and the exact sum over all
    columns of the last entry of the column. *)
Definition sum_list (l : list Z) : Z := foldr Z.add 0 l.

Definition sum_all (m : umat) : Z := sum_list (map sum_list m).

Definition final_row_sum (m : umat) : Z :=
  sum_list (map (fun col => default 0 (last col)) m).

(** Every entry of the matrix is a value of [arma::uword]. *)
Definition uword_entries (w : Z) (m : umat) : Prop :=
  Forall (Forall (fun x => 0 <= x < 2 ^ w)) m.

(** The slot in which the selected strategy keeps its maximum: slot 0 of
    the observed-data vectors for [store_max], the slot of the current
    round of the simulation vectors for [store_sim]. *)
Definition retained (st : PBPOIabstract) : option Row :=
  match store st with
  | Store_sim => sim_row st (Z.to_nat (m_mcsim_index st))
  | _ => obs_row st 0
  end.

(** The object keeps a maximum ([store_max] or [store_sim] is selected)
    and the slot of the maximum exists. *)
Definition retain_mode (st : PBPOIabstract) (n : nat) : Prop :=
  (store st = Store_max /\ obs_slots st (S n)) \/
  (store st = Store_sim /\ sim_slots st n /\
   0 <= m_mcsim_index st < Z.of_nat n).

(** ** Small instances

    One location and two time steps, raw counts [3, 5] and baselines
    [2, 2].  [example_base] stands for the object as the base-class
    constructor leaves it when everything is stored (two slots, here
    holding zeros), [example_base_max] when only the maximum is kept (one
    slot, whose score starts at minus infinity) and two simulation rounds
    are reserved. *)
Definition example_counts : umat := [[3; 5]].
Definition example_baselines : mat := [[DFin 2; DFin 2]].
Definition example_fresh : nat -> double := fun _ => DFin 0.

Definition example_base (counts : umat) : PBPOIabstract :=
  mkPBPOI counts [] [] 0 2 0 0
    [DFin 0; DFin 0] [] [] [0; 0] [0; 0] [] [] [] [] [] Store_max.

Definition example_base_max (counts : umat) : PBPOIabstract :=
  mkPBPOI counts [] [] 0 1 2 0
    [R_NegInf] [] [] [0] [0] [R_NegInf; R_NegInf] [] [] [0; 0] [0; 0]
    Store_max.

Definition example_all (w : Z) : PBPOIabstract :=
  PBPOIabstract_new w example_fresh example_counts example_baselines true
    (example_base example_counts).

Definition example_max (w : Z) : PBPOIabstract :=
  PBPOIabstract_new w example_fresh example_counts example_baselines false
    (example_base_max example_counts).

(** Two locations and two time steps: counts [3, 5] and [1, 1], baselines
    [2, 2] at both locations; only the maximum is kept. *)
Definition example2_counts : umat := [[3; 5]; [1; 1]].
Definition example2_baselines : mat :=
  [[DFin 2; DFin 2]; [DFin 2; DFin 2]].

Definition example2_max (w : Z) : PBPOIabstract :=
  PBPOIabstract_new w example_fresh example2_counts example2_baselines false
    (example_base_max example2_counts).

(** Location 0 for one time step ([C = 3], [B = 2]) and location 1 for one
    time step ([C = 1], [B = 2]). *)
Definition example2_excess : candidate := mkCandidate 0 0 0 [0%nat] [0%nat].
Definition example2_no_excess : candidate :=
  mkCandidate 0 1 0 [1%nat] [0%nat].

(** Counts whose sum, [2^31], is not a value of [int]. *)
Definition overflow_counts : umat := [[2147483647; 1]].

Definition overflow_object (w : Z) : PBPOIabstract :=
  PBPOIabstract_new w example_fresh overflow_counts example_baselines false
    (example_base_max overflow_counts).

(** The two candidates of the instance: the zone made of location 0 with
    duration 1 and with duration 2 (the whole window). *)
Definition example_cand1 : candidate := mkCandidate 0 0 0 [0%nat] [0%nat].
Definition example_cand2 : candidate :=
  mkCandidate 1 0 1 [0%nat] [0%nat; 1%nat].

(** Two calls with the same score and different zones. *)
Definition example_call1 : store_call :=
  mkCall 0 (mkRow 1 1 (DFin 5) (DFin 2) (DFin 1)).
Definition example_call2 : store_call :=
  mkCall 0 (mkRow 2 1 (DFin 5) (DFin 3) (DFin 1)).

(** ** Notions for the further properties *)

(** The exact number of raw counts at the locations of a zone over the
    rows [0 .. r], and the same for the baselines (over the reals). *)
Definition zone_count (counts : umat) (zone : uvec) (r : nat) : Z :=
  sum_list
    (map (fun loc => sum_list (take (S r) (default [] (counts !! loc)))) zone).

Definition dval (d : double) : R :=
  match d with DFin x => x | _ => 0%R end.

Definition Rsum (l : list R) : R := foldr Rplus 0%R l.

Definition zone_baseline (baselines : mat) (zone : uvec) (r : nat) : R :=
  Rsum
    (map (fun loc =>
            Rsum (map dval (take (S r) (default [] (baselines !! loc)))))
       zone).

(** Every raw baseline is a finite number, respectively a finite number
    above zero. *)
Definition all_finite (m : mat) : Prop :=
  Forall (Forall (fun d => is_finite d = true)) m.

Definition all_positive (m : mat) : Prop :=
  Forall (Forall (fun d => exists x : R, d = DFin x /\ (0 < x)%R)) m.

(** A matrix of [n_rows] rows and [n_cols] columns. *)
Definition rect {A} (m : list (list A)) (n_rows n_cols : nat) : Prop :=
  length m = n_cols /\ Forall (fun col => length col = n_rows) m.

(** The effect of one call of [store_all] inside the vectors. *)
Definition write_call (st : PBPOIabstract) (c : store_call) : PBPOIabstract :=
  write_obs st (Z.to_nat (call_index c)) (call_row c).

(** The sizes of the ten result vectors. *)
Definition vector_sizes (st : PBPOIabstract) : list nat :=
  [ length (m_scores st); length (m_relrisk_in st);
    length (m_relrisk_out st); length (m_zone_numbers st);
    length (m_durations st); length (sim_scores st);
    length (sim_relrisk_in st); length (sim_relrisk_out st);
    length (sim_zone_numbers st); length (sim_durations st) ].

(** The last call of a list that writes slot [i]. *)
Definition last_call_at (i : nat) (calls : list store_call)
  : option store_call :=
  last (filter (fun c => Z.to_nat (call_index c) = i) calls).

(** Baselines with a NaN at the second time step. *)
Definition nan_baselines : mat := [[DFin 2; DNaN]].




(** * Properties *)

(** ** Facts about the [double] model *)

Ltac rdec :=
  unfold Rzero, Rneg in *;
  repeat match goal with
         | |- context [Rlt_dec ?a ?b] => destruct (Rlt_dec a b)
         | |- context [Rle_dec ?a ?b] => destruct (Rle_dec a b)
         | |- context [Req_dec_T ?a ?b] => destruct (Req_dec_T a b)
         | H : context [Rlt_dec ?a ?b] |- _ => destruct (Rlt_dec a b)
         | H : context [Rle_dec ?a ?b] |- _ => destruct (Rle_dec a b)
         | H : context [Req_dec_T ?a ?b] |- _ => destruct (Req_dec_T a b)
         end;
  simpl in *; try congruence; try lra.

Lemma dgt_neginf (x : double) : dgt R_NegInf x = false.
Proof. destruct x as [|[]|]; reflexivity. Qed.

Lemma dgt_irrefl (x : double) : dgt x x = false.
Proof. destruct x as [|[]|]; simpl; try reflexivity. rdec. Qed.

Lemma dgt_asym (x y : double) : dgt x y = true -> dgt y x = false.
Proof.
  destruct x as [|[]|x], y as [|[]|y]; simpl; try congruence. rdec.
Qed.

(** A value that does not beat [s] does not beat a value above [s]. *)
Lemma dgt_below (c s c' : double) :
  dgt c s = true -> dgt c' s = false -> dgt c' c = false.
Proof.
  destruct c as [|[]|c], s as [|[]|s], c' as [|[]|c'];
    simpl; try congruence; rdec.
Qed.

Lemma dgt_trans (x y z : double) :
  dgt x y = true -> dgt y z = true -> dgt x z = true.
Proof.
  destruct x as [|[]|x], y as [|[]|y], z as [|[]|z];
    simpl; try congruence; rdec.
Qed.

Lemma dle_not_dgt (x y : double) : dle x y = true -> dgt x y = false.
Proof.
  destruct x as [|[]|x], y as [|[]|y]; simpl; try congruence; rdec.
Qed.

(** ** Facts about machine integers *)

Lemma pow2_wide (w : Z) : 32 <= w -> 2 ^ 32 <= 2 ^ w.
Proof. intros Hw. apply Z.pow_le_mono_r; lia. Qed.

Lemma wrap_small (w z : Z) : 32 <= w -> 0 <= z <= INT_MAX -> wrap w z = z.
Proof.
  intros Hw Hz. unfold wrap, INT_MAX in *.
  pose proof (pow2_wide w Hw). apply Z.mod_small. lia.
Qed.

Lemma to_int_small (z : Z) : INT_MIN <= z <= INT_MAX -> to_int z = z.
Proof.
  unfold to_int, INT_MIN, INT_MAX. intros Hz.
  rewrite Z.mod_small by lia. lia.
Qed.

Lemma int_add_Some (a b : Z) :
  INT_MIN <= a + b <= INT_MAX -> int_add a b = Some (a + b).
Proof.
  intros H. unfold int_add.
  destruct (Z.leb_spec INT_MIN (a + b)), (Z.leb_spec (a + b) INT_MAX);
    simpl; try reflexivity; lia.
Qed.

Lemma int_add_inv (a b r : Z) :
  int_add a b = Some r -> r = a + b /\ INT_MIN <= a + b <= INT_MAX.
Proof.
  unfold int_add.
  destruct (Z.leb_spec INT_MIN (a + b)), (Z.leb_spec (a + b) INT_MAX);
    simpl; intros [= <-]; lia.
Qed.

(** ** The relative risks and the score *)

(** Without unsigned wrap-around ([C <= total]) the numerator of the
    out-of-zone risk is the integer [total - C]. *)
Lemma risk_out_unfold (w total C : Z) (B : double) :
  32 <= w -> 0 <= C <= total -> total <= INT_MAX ->
  risk_out w total C B =
    if dgt (of_Z total) B
    then ddiv (of_Z (total - C)) (dsub (of_Z total) B)
    else DFin 1.
Proof.
  intros Hw HC Ht. unfold risk_out.
  rewrite wrap_small by (unfold INT_MAX in *; lia). reflexivity.
Qed.


Lemma risk_in_quotient (C : Z) (b : R) :
  b <> 0%R -> risk_in C (DFin b) = DFin (IZR C / b).
Proof.
  intros Hb. unfold risk_in, of_Z, ddiv, Rzero.
  destruct (Req_dec_T b 0); [contradiction|reflexivity].
Qed.

(** The score of a candidate with excess that lies strictly inside the
    total, rounding and overflow left aside: the value of the
    likelihood-ratio formula. *)
Lemma score_interior (w total C : Z) (b : R) :
  32 <= w -> (0 < b)%R -> (b < IZR C)%R -> C < total -> total <= INT_MAX ->
  score w total C (DFin b) =
    DFin (IZR C * ln (IZR C / b) +
          (IZR total - IZR C) *
            ln ((IZR total - IZR C) / (IZR total - b))).
Proof.
  intros Hw Hb HbC HCt Ht.
  assert (HC0 : 0 < C) by (apply lt_IZR; lra).
  assert (HCtR : (IZR C < IZR total)%R) by (apply IZR_lt; lia).
  unfold score, risk_in.
  rewrite (risk_out_unfold w total C (DFin b)) by lia.
  rewrite wrap_small by (unfold INT_MAX in *; lia).
  unfold of_Z. simpl. rewrite minus_IZR.
  destruct (Rlt_dec b (IZR C)); [|lra].
  destruct (Rlt_dec b (IZR total)); [|lra].
  unfold Rzero.
  destruct (Req_dec_T b 0); [lra|].
  destruct (Req_dec_T (IZR total + - b) 0); [lra|]. simpl.
  destruct (Rlt_dec 0 (IZR C / b)) as [_|Hn].
  2:{ exfalso. apply Hn. apply Rdiv_lt_0_compat; lra. }
  destruct (Rlt_dec 0 ((IZR total - IZR C) / (IZR total + - b))) as [_|Hn].
  2:{ exfalso. apply Hn. apply Rdiv_lt_0_compat; lra. }
  reflexivity.
Qed.

(** The boundary case [C = total]: the out-of-zone risk is zero, its
    logarithm is minus infinity, and the product [0 * -inf] makes the
    score NaN. *)
Lemma score_boundary (w total : Z) (b : R) :
  32 <= w -> (0 < b)%R -> (b < IZR total)%R -> total <= INT_MAX ->
  risk_out w total total (DFin b) = DFin 0 /\
  score w total total (DFin b) = DNaN.
Proof.
  intros Hw Hb Hbt Ht.
  assert (Ht0 : 0 < total) by (apply lt_IZR; lra).
  unfold score, risk_in.
  rewrite (risk_out_unfold w total total (DFin b)) by lia.
  rewrite wrap_small by (unfold INT_MAX in *; lia).
  rewrite Z.sub_diag. unfold of_Z. simpl.
  destruct (Rlt_dec b (IZR total)); [|lra].
  unfold Rzero.
  destruct (Req_dec_T b 0); [lra|].
  destruct (Req_dec_T (IZR total + - b) 0); [lra|]. simpl.
  split; [f_equal; unfold Rdiv; apply Rmult_0_l|].
  destruct (Rlt_dec 0 (IZR total / b)) as [_|Hn].
  2:{ exfalso. apply Hn. apply Rdiv_lt_0_compat; lra. }
  destruct (Rlt_dec 0 (0 / (IZR total + - b))) as [Hp|_].
  { exfalso. unfold Rdiv in Hp. rewrite Rmult_0_l in Hp. lra. }
  simpl. destruct (Req_dec_T 0 0); [|lra].
  unfold Rzero. destruct (Req_dec_T (0 / (IZR total + - b)) 0); reflexivity.
Qed.

(** A candidate without excess scores minus infinity. *)
Lemma score_no_excess (w total C : Z) (B : double) :
  dgt (of_Z C) B = false -> score w total C B = R_NegInf.
Proof. intros H. unfold score. rewrite H. reflexivity. Qed.

(** A score other than minus infinity or NaN belongs to a candidate with
    excess. *)
Lemma score_excess_inv (w total C : Z) (B s : double) :
  dgt (score w total C B) s = true -> dgt (of_Z C) B = true.
Proof.
  unfold score. destruct (dgt (of_Z C) B); [reflexivity|].
  rewrite dgt_neginf. congruence.
Qed.

(** ** The storage functions *)

Lemma vec_set_Some {A} (l : list A) (i : Z) (v : A) :
  0 <= i < Z.of_nat (length l) ->
  vec_set l i v = Some (<[Z.to_nat i := v]> l).
Proof. intros H. unfold vec_set. rewrite bool_decide_eq_true_2; done. Qed.

Lemma vec_get_lookup {A} (l : list A) (i : nat) :
  vec_get l (Z.of_nat i) = l !! i.
Proof.
  unfold vec_get. rewrite bool_decide_eq_true_2 by lia.
  by rewrite Nat2Z.id.
Qed.

(** [store_all] writes the five fields into slot [storage_index]. *)
Lemma store_all_write (st : PBPOIabstract) (n : nat) (i : Z) (r : Row) :
  obs_slots st n -> 0 <= i < Z.of_nat n ->
  store_all st i (row_score r) (relrisk_in r) (relrisk_out r)
    (zone r) (duration r) = Some (write_obs st (Z.to_nat i) r).
Proof.
  intros (H1 & H2 & H3 & H4 & H5) Hi. unfold store_all.
  rewrite !vec_set_Some by lia. reflexivity.
Qed.

(** [store_max] is a strict comparison with slot 0 followed by a write of
    the five fields into slot 0. *)
Lemma store_max_cases (st : PBPOIabstract) (n : nat) (i : Z) (r : Row)
    (cur : double) :
  obs_slots st (S n) -> m_scores st !! 0%nat = Some cur ->
  store_max st i (row_score r) (relrisk_in r) (relrisk_out r)
    (zone r) (duration r)
  = Some (if dgt (row_score r) cur then write_obs st 0 r else st).
Proof.
  intros (H1 & H2 & H3 & H4 & H5) Hcur. unfold store_max.
  change 0 with (Z.of_nat 0). rewrite vec_get_lookup, Hcur. simpl.
  destruct (dgt (row_score r) cur); [|reflexivity].
  rewrite !vec_set_Some by lia. reflexivity.
Qed.

(** [store_sim] is the same comparison and write at slot
    [m_mcsim_index]. *)
Lemma store_sim_cases (st : PBPOIabstract) (n : nat) (i : Z) (r : Row)
    (cur : double) :
  sim_slots st n -> 0 <= m_mcsim_index st < Z.of_nat n ->
  sim_scores st !! Z.to_nat (m_mcsim_index st) = Some cur ->
  store_sim st i (row_score r) (relrisk_in r) (relrisk_out r)
    (zone r) (duration r)
  = Some (if dgt (row_score r) cur
          then write_sim st (Z.to_nat (m_mcsim_index st)) r else st).
Proof.
  intros (H1 & H2 & H3 & H4 & H5) Hi Hcur. unfold store_sim, vec_get.
  rewrite bool_decide_eq_true_2 by lia. rewrite Hcur. simpl.
  destruct (dgt (row_score r) cur); [|reflexivity].
  rewrite !vec_set_Some by lia. reflexivity.
Qed.

Lemma obs_slots_write (st : PBPOIabstract) (n i : nat) (r : Row) :
  obs_slots st n -> obs_slots (write_obs st i r) n.
Proof.
  unfold obs_slots. simpl. rewrite !length_insert. done.
Qed.

Lemma sim_slots_write (st : PBPOIabstract) (n i : nat) (r : Row) :
  sim_slots st n -> sim_slots (write_sim st i r) n.
Proof.
  unfold sim_slots. simpl. rewrite !length_insert. done.
Qed.

Lemma obs_row_write_eq (st : PBPOIabstract) (n i : nat) (r : Row) :
  obs_slots st n -> (i < n)%nat -> obs_row (write_obs st i r) i = Some r.
Proof.
  intros (H1 & H2 & H3 & H4 & H5) Hi. unfold obs_row. simpl.
  rewrite !list_lookup_insert_eq by lia. simpl. by destruct r.
Qed.

Lemma obs_row_write_ne (st : PBPOIabstract) (i j : nat) (r : Row) :
  i <> j -> obs_row (write_obs st i r) j = obs_row st j.
Proof.
  intros Hij. unfold obs_row. simpl.
  rewrite !list_lookup_insert_ne by done. reflexivity.
Qed.

Lemma sim_row_write_eq (st : PBPOIabstract) (n i : nat) (r : Row) :
  sim_slots st n -> (i < n)%nat -> sim_row (write_sim st i r) i = Some r.
Proof.
  intros (H1 & H2 & H3 & H4 & H5) Hi. unfold sim_row. simpl.
  rewrite !list_lookup_insert_eq by lia. simpl. by destruct r.
Qed.

Lemma sim_row_write_ne (st : PBPOIabstract) (i j : nat) (r : Row) :
  i <> j -> sim_row (write_sim st i r) j = sim_row st j.
Proof.
  intros Hij. unfold sim_row. simpl.
  rewrite !list_lookup_insert_ne by done. reflexivity.
Qed.

Lemma obs_row_Some (st : PBPOIabstract) (n i : nat) :
  obs_slots st n -> (i < n)%nat -> exists r, obs_row st i = Some r.
Proof.
  intros (H1 & H2 & H3 & H4 & H5) Hi. unfold obs_row.
  destruct (lookup_lt_is_Some_2 (m_zone_numbers st) i) as [z ->]; [lia|].
  destruct (lookup_lt_is_Some_2 (m_durations st) i) as [d ->]; [lia|].
  destruct (lookup_lt_is_Some_2 (m_scores st) i) as [s ->]; [lia|].
  destruct (lookup_lt_is_Some_2 (m_relrisk_in st) i) as [a ->]; [lia|].
  destruct (lookup_lt_is_Some_2 (m_relrisk_out st) i) as [b ->]; [lia|].
  simpl. eauto.
Qed.

Lemma sim_row_Some (st : PBPOIabstract) (n i : nat) :
  sim_slots st n -> (i < n)%nat -> exists r, sim_row st i = Some r.
Proof.
  intros (H1 & H2 & H3 & H4 & H5) Hi. unfold sim_row.
  destruct (lookup_lt_is_Some_2 (sim_zone_numbers st) i) as [z ->]; [lia|].
  destruct (lookup_lt_is_Some_2 (sim_durations st) i) as [d ->]; [lia|].
  destruct (lookup_lt_is_Some_2 (sim_scores st) i) as [s ->]; [lia|].
  destruct (lookup_lt_is_Some_2 (sim_relrisk_in st) i) as [a ->]; [lia|].
  destruct (lookup_lt_is_Some_2 (sim_relrisk_out st) i) as [b ->]; [lia|].
  simpl. eauto.
Qed.

Lemma obs_row_score (st : PBPOIabstract) (i : nat) (r : Row) :
  obs_row st i = Some r -> m_scores st !! i = Some (row_score r).
Proof.
  unfold obs_row. intros H.
  destruct (m_zone_numbers st !! i), (m_durations st !! i),
    (m_scores st !! i), (m_relrisk_in st !! i), (m_relrisk_out st !! i);
    simpl in H; try discriminate.
  by injection H as <-.
Qed.

Lemma sim_row_score (st : PBPOIabstract) (i : nat) (r : Row) :
  sim_row st i = Some r -> sim_scores st !! i = Some (row_score r).
Proof.
  unfold sim_row. intros H.
  destruct (sim_zone_numbers st !! i), (sim_durations st !! i),
    (sim_scores st !! i), (sim_relrisk_in st !! i),
    (sim_relrisk_out st !! i); simpl in H; try discriminate.
  by injection H as <-.
Qed.

(** The exported tables hold exactly the stored vectors. *)
Lemma df_row_get_scan (st : PBPOIabstract) (i : nat) :
  df_row (get_scan st) i = obs_row st i.
Proof. reflexivity. Qed.

Lemma df_row_get_mcsim (st : PBPOIabstract) (i : nat) :
  df_row (get_mcsim st) i = sim_row st i.
Proof. reflexivity. Qed.

(** C10: [store_max] and [store_sim] do not depend on their
    [storage_index] argument: two calls that differ only in it give the
    same state, hence the same contents of slot 0, respectively of the
    slot of the current simulation round. *)
Theorem store_max_sim_ignore_index (st : PBPOIabstract) (i j : Z)
    (s q_in q_out : double) (z d : Z) :
  store_max st i s q_in q_out z d = store_max st j s q_in q_out z d /\
  store_sim st i s q_in q_out z d = store_sim st j s q_in q_out z d /\
  (st1 ← store_max st i s q_in q_out z d; obs_row st1 0) =
    (st2 ← store_max st j s q_in q_out z d; obs_row st2 0) /\
  (st1 ← store_sim st i s q_in q_out z d;
     sim_row st1 (Z.to_nat (m_mcsim_index st))) =
    (st2 ← store_sim st j s q_in q_out z d;
     sim_row st2 (Z.to_nat (m_mcsim_index st))).
Proof. repeat split; reflexivity. Qed.

Lemma same_setup_refl (st : PBPOIabstract) : same_setup st st.
Proof. repeat split. Qed.

Lemma same_setup_trans (a b c : PBPOIabstract) :
  same_setup a b -> same_setup b c -> same_setup a c.
Proof. unfold same_setup. intuition congruence. Qed.

Lemma same_setup_write_obs (st : PBPOIabstract) (i : nat) (r : Row) :
  same_setup st (write_obs st i r).
Proof. repeat split. Qed.

Lemma same_setup_write_sim (st : PBPOIabstract) (i : nat) (r : Row) :
  same_setup st (write_sim st i r).
Proof. repeat split. Qed.

Lemma store_fun_setup (p : store_ptr) (st st' : PBPOIabstract) (i : Z)
    (s a b : double) (z d : Z) :
  store_fun p st i s a b z d = Some st' -> same_setup st st'.
Proof.
  destruct p; simpl; unfold store_all, store_max, store_sim; intros H.
  - repeat (match type of H with
            | context [vec_set ?l ?i ?v] => destruct (vec_set l i v)
            end; simpl in H; try discriminate).
    injection H as <-. repeat split.
  - destruct (vec_get (m_scores st) 0) as [cur|]; simpl in H;
      [|discriminate].
    destruct (dgt s cur).
    + repeat (match type of H with
              | context [vec_set ?l ?i ?v] => destruct (vec_set l i v)
              end; simpl in H; try discriminate).
      injection H as <-. repeat split.
    + injection H as <-. apply same_setup_refl.
  - destruct (vec_get (sim_scores st) (m_mcsim_index st)) as [cur|];
      simpl in H; [|discriminate].
    destruct (dgt s cur).
    + repeat (match type of H with
              | context [vec_set ?l ?i ?v] => destruct (vec_set l i v)
              end; simpl in H; try discriminate).
      injection H as <-. repeat split.
    + injection H as <-. apply same_setup_refl.
Qed.

(** The row computed for a candidate depends on the aggregated tables
    only. *)
Lemma candidate_row_setup (w : Z) (st st' : PBPOIabstract) (c : candidate) :
  same_setup st st' -> candidate_row w st' c = candidate_row w st c.
Proof.
  intros (H1 & H2 & _ & H4 & _).
  unfold candidate_row, candidate_C, candidate_B. by rewrite H1, H2, H4.
Qed.

(** [calculate] computes the candidate's row and hands it to the selected
    storage function. *)
Lemma calculate_unfold (w : Z) (st : PBPOIabstract) (c : candidate) :
  calculate_candidate w st c =
    r ← candidate_row w st c;
    call_store st (storage_index c) (row_score r) (relrisk_in r)
      (relrisk_out r) (zone r) (duration r).
Proof.
  unfold calculate_candidate, calculate, candidate_row, candidate_C,
    candidate_B.
  destruct (tail1 (current_rows c)) as [row_idx|]; simpl; [|reflexivity].
  destruct (submat (m_counts st) row_idx (current_zone c)); simpl;
    [|reflexivity].
  destruct (submat (m_baselines st) row_idx (current_zone c)); simpl;
    [|reflexivity].
  destruct (int_add (zone_nr c) 1); simpl; [|reflexivity].
  destruct (int_add (cand_duration c) 1); reflexivity.
Qed.

Lemma calculate_setup (w : Z) (st st' : PBPOIabstract) (c : candidate) :
  calculate_candidate w st c = Some st' -> same_setup st st'.
Proof.
  rewrite calculate_unfold.
  destruct (candidate_row w st c); simpl; [|discriminate].
  apply store_fun_setup.
Qed.

Lemma scan_setup (w : Z) (cs : list candidate) (st st' : PBPOIabstract) :
  scan w st cs = Some st' -> same_setup st st'.
Proof.
  revert st. induction cs as [|c cs IH]; intros st; simpl.
  - intros [= <-]. apply same_setup_refl.
  - destruct (calculate_candidate w st c) as [st1|] eqn:E; simpl;
      [|discriminate].
    intros H. eapply same_setup_trans; [|apply IH; exact H].
    eapply calculate_setup; exact E.
Qed.

Lemma candidate_row_Some (w : Z) (st : PBPOIabstract) (c : candidate)
    (C : Z) (B : double) :
  candidate_C w st c = Some C -> candidate_B st c = Some B ->
  INT_MIN <= zone_nr c < INT_MAX -> INT_MIN <= cand_duration c < INT_MAX ->
  candidate_row w st c =
    Some (mkRow (zone_nr c + 1) (cand_duration c + 1)
            (score w (m_total_count st) C B) (risk_in C B)
            (risk_out w (m_total_count st) C B)).
Proof.
  intros HC HB Hz Hd. unfold candidate_row. rewrite HC, HB. simpl.
  rewrite !int_add_Some by lia. reflexivity.
Qed.

(** C9: the zone number and the duration handed to the storage function,
    stored and later exported by [get_scan] (or [get_mcsim]) are the
    arguments of [calculate] plus one; the score and the two relative
    risks are stored as computed.  [C] and [B] are the in-zone sums of the
    candidate; the two arguments are [int] values below [INT_MAX]. *)
Theorem calculate_stores_one_based (w : Z) (st : PBPOIabstract)
    (c : candidate) (C : Z) (B : double) :
  candidate_C w st c = Some C -> candidate_B st c = Some B ->
  INT_MIN <= zone_nr c < INT_MAX -> INT_MIN <= cand_duration c < INT_MAX ->
  let r := mkRow (zone_nr c + 1) (cand_duration c + 1)
             (score w (m_total_count st) C B) (risk_in C B)
             (risk_out w (m_total_count st) C B) in
  calculate_candidate w st c =
    call_store st (storage_index c) (score w (m_total_count st) C B)
      (risk_in C B) (risk_out w (m_total_count st) C B)
      (zone_nr c + 1) (cand_duration c + 1) /\
  (forall n : nat, store st = Store_all -> obs_slots st n ->
     0 <= storage_index c < Z.of_nat n ->
     exists st', calculate_candidate w st c = Some st' /\
       df_row (get_scan st') (Z.to_nat (storage_index c)) = Some r) /\
  (forall (n : nat) (cur : double), store st = Store_max ->
     obs_slots st (S n) -> m_scores st !! 0%nat = Some cur ->
     dgt (score w (m_total_count st) C B) cur = true ->
     exists st', calculate_candidate w st c = Some st' /\
       df_row (get_scan st') 0 = Some r) /\
  (forall (n : nat) (cur : double), store st = Store_sim ->
     sim_slots st n -> 0 <= m_mcsim_index st < Z.of_nat n ->
     sim_scores st !! Z.to_nat (m_mcsim_index st) = Some cur ->
     dgt (score w (m_total_count st) C B) cur = true ->
     exists st', calculate_candidate w st c = Some st' /\
       df_row (get_mcsim st') (Z.to_nat (m_mcsim_index st)) = Some r).
Proof.
  intros HC HB Hz Hd r.
  pose proof (candidate_row_Some w st c C B HC HB Hz Hd) as Hrow.
  fold r in Hrow.
  assert (Hcalc : calculate_candidate w st c =
            call_store st (storage_index c) (row_score r) (relrisk_in r)
              (relrisk_out r) (zone r) (duration r)).
  { rewrite calculate_unfold, Hrow. reflexivity. }
  split; [exact Hcalc|]. rewrite Hcalc. unfold call_store.
  split; [|split].
  - intros n -> Hn Hi. unfold store_fun.
    rewrite (store_all_write st n (storage_index c) r Hn Hi).
    eexists; split; [reflexivity|].
    rewrite df_row_get_scan. apply (obs_row_write_eq st n); [done|lia].
  - intros n cur -> Hn Hcur Hgt. unfold store_fun.
    rewrite (store_max_cases st n (storage_index c) r cur Hn Hcur).
    change (row_score r) with (score w (m_total_count st) C B).
    rewrite Hgt. eexists; split; [reflexivity|].
    rewrite df_row_get_scan. apply (obs_row_write_eq st (S n)); [done|lia].
  - intros n cur -> Hn Hi Hcur Hgt. unfold store_fun.
    rewrite (store_sim_cases st n (storage_index c) r cur Hn Hi Hcur).
    change (row_score r) with (score w (m_total_count st) C B).
    rewrite Hgt. eexists; split; [reflexivity|].
    rewrite df_row_get_mcsim. apply (sim_row_write_eq st n); [done|lia].
Qed.

Lemma calculate_stores_one_based_witness :
  exists st', calculate_candidate 32 (example_all 32) example_cand1
              = Some st' /\
    (r ← df_row (get_scan st') 0; Some (zone r, duration r)) = Some (1, 1).
Proof.
  assert (HC : candidate_C 32 (example_all 32) example_cand1 = Some 3)
    by reflexivity.
  assert (HB : candidate_B (example_all 32) example_cand1
               = Some (DFin (0 + (0 + 2))%R)) by reflexivity.
  assert (Hz : INT_MIN <= zone_nr example_cand1 < INT_MAX)
    by (unfold INT_MIN, INT_MAX; simpl; lia).
  assert (Hd : INT_MIN <= cand_duration example_cand1 < INT_MAX)
    by (unfold INT_MIN, INT_MAX; simpl; lia).
  destruct (calculate_stores_one_based 32 (example_all 32) example_cand1
              3 _ HC HB Hz Hd) as (_ & Hall & _).
  destruct (Hall 2%nat) as (st' & Hst & Hr).
  - reflexivity.
  - repeat split.
  - simpl. lia.
  - exists st'. split; [exact Hst|].
    change (Z.to_nat (storage_index example_cand1)) with 0%nat in Hr.
    rewrite Hr. reflexivity.
Defined.

(** ** The running maximum of a strict comparison *)

Lemma dgt_above (r s c : double) :
  dgt r s = true -> dgt c s = false -> dgt r c = true \/ is_nan c = true.
Proof.
  destruct r as [|[]|r], s as [|[]|s], c as [|[]|c];
    simpl; try congruence; auto; rdec; auto.
Qed.

Lemma running_max_cons (r0 x : Row) (rows : list Row) :
  running_max r0 (x :: rows) =
    running_max (if dgt (row_score x) (row_score r0) then x else r0) rows.
Proof. reflexivity. Qed.

(** Nothing in the list beats the retained row; the retained row is the
    start row, or the earliest row of the list with its score, and then
    every row before it is strictly below it (or has a NaN score). *)
Lemma running_max_spec (rows : list Row) (r0 : Row) :
  (forall x, x ∈ rows ->
     dgt (row_score x) (row_score (running_max r0 rows)) = false) /\
  dgt (row_score r0) (row_score (running_max r0 rows)) = false /\
  ((running_max r0 rows = r0 /\
    forall x, x ∈ rows -> dgt (row_score x) (row_score r0) = false) \/
   (exists k : nat, rows !! k = Some (running_max r0 rows) /\
      dgt (row_score (running_max r0 rows)) (row_score r0) = true /\
      forall (j : nat) (x : Row), (j < k)%nat -> rows !! j = Some x ->
        dgt (row_score (running_max r0 rows)) (row_score x) = true \/
        is_nan (row_score x) = true)).
Proof.
  revert r0. induction rows as [|x rows IH]; intros r0.
  - simpl. split; [intros x Hx; inversion Hx|].
    split; [apply dgt_irrefl|]. left. split; [reflexivity|].
    intros x Hx; inversion Hx.
  - rewrite running_max_cons.
    destruct (dgt (row_score x) (row_score r0)) eqn:Hx.
    + destruct (IH x) as (Hall & Hx0 & Hcase).
      set (r := running_max x rows) in *.
      assert (Hr0 : dgt (row_score r0) (row_score r) = false).
      { destruct Hcase as [[Heq _]|(k & _ & Hgt & _)].
        - rewrite Heq. apply dgt_asym. exact Hx.
        - apply dgt_asym. eapply dgt_trans; eassumption. }
      split; [|split; [exact Hr0|]].
      * intros y Hy. apply elem_of_cons in Hy as [->|Hy]; auto.
      * right. destruct Hcase as [[Heq _]|(k & Hk & Hgt & Hbefore)].
        -- exists 0%nat. rewrite Heq. split; [reflexivity|].
           split; [exact Hx|]. intros j y Hj. lia.
        -- exists (S k). split; [exact Hk|].
           split; [eapply dgt_trans; eassumption|].
           intros [|j] y Hj Hy.
           ++ injection Hy as <-. left. exact Hgt.
           ++ apply (Hbefore j); [lia|exact Hy].
    + destruct (IH r0) as (Hall & Hx0 & Hcase).
      set (r := running_max r0 rows) in *.
      split; [|split; [exact Hx0|]].
      * intros y Hy. apply elem_of_cons in Hy as [->|Hy]; auto.
        destruct Hcase as [[Heq _]|(k & _ & Hgt & _)].
        -- rewrite Heq. exact Hx.
        -- eapply dgt_below; eassumption.
      * destruct Hcase as [[Heq Hle]|(k & Hk & Hgt & Hbefore)].
        -- left. split; [exact Heq|].
           intros y Hy. apply elem_of_cons in Hy as [->|Hy]; auto.
        -- right. exists (S k). split; [exact Hk|].
           split; [exact Hgt|].
           intros [|j] y Hj Hy.
           ++ injection Hy as <-. eapply dgt_above; eassumption.
           ++ apply (Hbefore j); [lia|exact Hy].
Qed.

(** ** Sequences of calls of [store_max] and [store_sim] *)

Lemma apply_store_max (st : PBPOIabstract) (n : nat) (r0 : Row)
    (c : store_call) :
  obs_slots st (S n) -> obs_row st 0 = Some r0 ->
  apply_store store_max st c =
    Some (if dgt (row_score (call_row c)) (row_score r0)
          then write_obs st 0 (call_row c) else st).
Proof.
  intros Hn H0. unfold apply_store.
  apply (store_max_cases st n); [exact Hn|].
  apply obs_row_score. exact H0.
Qed.

Lemma apply_store_sim (st : PBPOIabstract) (n : nat) (r0 : Row)
    (c : store_call) :
  sim_slots st n -> 0 <= m_mcsim_index st < Z.of_nat n ->
  sim_row st (Z.to_nat (m_mcsim_index st)) = Some r0 ->
  apply_store store_sim st c =
    Some (if dgt (row_score (call_row c)) (row_score r0)
          then write_sim st (Z.to_nat (m_mcsim_index st)) (call_row c)
          else st).
Proof.
  intros Hn Hi H0. unfold apply_store.
  apply (store_sim_cases st n); [exact Hn|exact Hi|].
  apply sim_row_score. exact H0.
Qed.

(** After any sequence of calls of [store_max], slot 0 holds the running
    maximum of the rows; nothing else has changed. *)
Lemma store_seq_max (cs : list store_call) (st : PBPOIabstract) (n : nat)
    (r0 : Row) :
  obs_slots st (S n) -> obs_row st 0 = Some r0 ->
  exists st', store_seq store_max st cs = Some st' /\
    obs_slots st' (S n) /\
    obs_row st' 0 = Some (running_max r0 (map call_row cs)) /\
    (forall j : nat, j <> 0%nat -> obs_row st' j = obs_row st j) /\
    (forall j : nat, sim_row st' j = sim_row st j) /\
    same_setup st st'.
Proof.
  revert st r0. induction cs as [|c cs IH]; intros st r0 Hn H0.
  - exists st. simpl. repeat split; try easy; apply Hn.
  - simpl. rewrite (apply_store_max st n r0 c Hn H0). simpl.
    destruct (dgt (row_score (call_row c)) (row_score r0)) eqn:Hc.
    + destruct (IH (write_obs st 0 (call_row c)) (call_row c))
        as (st' & Hs & Hn' & Hr & Hother & Hsim & Hsetup).
      * apply obs_slots_write. exact Hn.
      * apply (obs_row_write_eq st (S n)); [exact Hn|lia].
      * exists st'. split; [exact Hs|]. split; [exact Hn'|].
        split; [exact Hr|]. split; [|split].
        -- intros j Hj. rewrite Hother by exact Hj.
           apply obs_row_write_ne. lia.
        -- intros j. rewrite Hsim. reflexivity.
        -- eapply same_setup_trans; [apply same_setup_write_obs|exact Hsetup].
    + destruct (IH st r0 Hn H0) as (st' & Hs & Hrest).
      exists st'. split; [exact Hs|exact Hrest].
Qed.

(** The same for [store_sim] and the slot of the current round. *)
Lemma store_seq_sim (cs : list store_call) (st : PBPOIabstract) (n : nat)
    (r0 : Row) :
  sim_slots st n -> 0 <= m_mcsim_index st < Z.of_nat n ->
  sim_row st (Z.to_nat (m_mcsim_index st)) = Some r0 ->
  exists st', store_seq store_sim st cs = Some st' /\
    sim_slots st' n /\
    sim_row st' (Z.to_nat (m_mcsim_index st))
      = Some (running_max r0 (map call_row cs)) /\
    (forall j : nat, j <> Z.to_nat (m_mcsim_index st) ->
       sim_row st' j = sim_row st j) /\
    (forall j : nat, obs_row st' j = obs_row st j) /\
    same_setup st st'.
Proof.
  revert st r0. induction cs as [|c cs IH]; intros st r0 Hn Hi H0.
  - exists st. simpl. repeat split; try easy; apply Hn.
  - simpl. rewrite (apply_store_sim st n r0 c Hn Hi H0). simpl.
    destruct (dgt (row_score (call_row c)) (row_score r0)) eqn:Hc.
    + set (i := Z.to_nat (m_mcsim_index st)) in *.
      destruct (IH (write_sim st i (call_row c)) (call_row c))
        as (st' & Hs & Hn' & Hr & Hother & Hobs & Hsetup).
      * apply sim_slots_write. exact Hn.
      * exact Hi.
      * apply (sim_row_write_eq st n); [exact Hn|]. simpl. lia.
      * exists st'. split; [exact Hs|]. split; [exact Hn'|].
        split; [exact Hr|]. split; [|split].
        -- intros j Hj. rewrite (Hother j) by exact Hj.
           apply sim_row_write_ne. intros Heq. apply Hj.
           rewrite <- Heq. reflexivity.
        -- intros j. rewrite Hobs. reflexivity.
        -- eapply same_setup_trans; [apply same_setup_write_sim|exact Hsetup].
    + destruct (IH st r0 Hn Hi H0) as (st' & Hs & Hrest).
      exists st'. split; [exact Hs|exact Hrest].
Qed.

(** C4: [store_max] compares the new score with the score in slot 0 and
    overwrites the five fields of slot 0 exactly when the new score is
    strictly greater; a tie leaves the state as it is.  After any sequence
    of calls slot 0 holds a row that no processed row beats: the row it
    held at the start, or the earliest processed row with that score,
    every earlier row being strictly below it (or NaN). *)
Theorem store_max_retains_maximum (st : PBPOIabstract) (n : nat)
    (cs : list store_call) :
  obs_slots st (S n) ->
  exists r0 : Row, obs_row st 0 = Some r0 /\
  (forall c : store_call,
     apply_store store_max st c =
       Some (if dgt (row_score (call_row c)) (row_score r0)
             then write_obs st 0 (call_row c) else st) /\
     obs_row (write_obs st 0 (call_row c)) 0 = Some (call_row c) /\
     (row_score (call_row c) = row_score r0 ->
      apply_store store_max st c = Some st)) /\
  exists (st' : PBPOIabstract) (r : Row),
    store_seq store_max st cs = Some st' /\ obs_row st' 0 = Some r /\
    r = running_max r0 (map call_row cs) /\
    (forall c, c ∈ cs -> dgt (row_score (call_row c)) (row_score r) = false) /\
    dgt (row_score r0) (row_score r) = false /\
    ((r = r0 /\
      forall c, c ∈ cs -> dgt (row_score (call_row c)) (row_score r0) = false)
     \/
     exists (k : nat) (c : store_call),
       cs !! k = Some c /\ call_row c = r /\
       dgt (row_score r) (row_score r0) = true /\
       forall (j : nat) (c' : store_call),
         (j < k)%nat -> cs !! j = Some c' ->
         (dgt (row_score r) (row_score (call_row c')) = true \/
          is_nan (row_score (call_row c')) = true) /\
         row_score (call_row c') <> row_score r).
Proof.
  intros Hn.
  destruct (obs_row_Some st (S n) 0 Hn) as [r0 H0]; [lia|].
  exists r0. split; [exact H0|]. split.
  - intros c. split; [apply (apply_store_max st n); assumption|].
    split; [apply (obs_row_write_eq st (S n)); [exact Hn|lia]|].
    intros Htie. rewrite (apply_store_max st n r0 c Hn H0).
    rewrite Htie, dgt_irrefl. reflexivity.
  - destruct (store_seq_max cs st n r0 Hn H0) as (st' & Hs & _ & Hr & _).
    exists st', (running_max r0 (map call_row cs)).
    split; [exact Hs|]. split; [exact Hr|]. split; [reflexivity|].
    destruct (running_max_spec (map call_row cs) r0) as (Hall & Hr0 & Hcase).
    set (r := running_max r0 (map call_row cs)) in *.
    split; [|split; [exact Hr0|]].
    + intros c Hc. apply Hall. apply list_elem_of_fmap. eauto.
    + destruct Hcase as [[Heq Hle]|(k & Hk & Hgt & Hbefore)].
      * left. split; [exact Heq|]. intros c Hc. apply Hle.
        apply list_elem_of_fmap. eauto.
      * right. rewrite list_lookup_fmap in Hk.
        destruct (cs !! k) as [c|] eqn:Ek; [|discriminate].
        injection Hk as Hk. exists k, c.
        split; [exact Ek|]. split; [exact Hk|]. split; [exact Hgt|].
        intros j c' Hj Hc'.
        assert (Hb : dgt (row_score r) (row_score (call_row c')) = true \/
                     is_nan (row_score (call_row c')) = true).
        { apply (Hbefore j); [exact Hj|].
          rewrite list_lookup_fmap, Hc'. reflexivity. }
        split; [exact Hb|]. intros Heq. destruct Hb as [Hb|Hb].
        -- rewrite Heq, dgt_irrefl in Hb. discriminate.
        -- rewrite Heq in Hb. destruct (row_score r); try discriminate.
Qed.

Lemma store_max_retains_maximum_witness :
  exists st', store_seq store_max (example_max 32)
                [example_call1; example_call2] = Some st' /\
    obs_row st' 0 = Some (call_row example_call1).
Proof.
  assert (Hn : obs_slots (example_max 32) 1) by (repeat split).
  destruct (store_max_retains_maximum (example_max 32) 0
              [example_call1; example_call2] Hn)
    as (r0 & H0 & _ & st' & r & Hs & Hr & Heq & _).
  exists st'. split; [exact Hs|]. rewrite Hr. f_equal. rewrite Heq.
  injection H0 as <-.
  change (map call_row [example_call1; example_call2])
    with [call_row example_call1; call_row example_call2].
  rewrite !running_max_cons.
  change (dgt (row_score (call_row example_call1)) _) with true. cbv iota.
  change (row_score (call_row example_call2))
    with (row_score (call_row example_call1)).
  rewrite dgt_irrefl. reflexivity.
Defined.

(** C5: [store_sim] applies the comparison of [store_max] to the slot of
    the current simulation round [m_mcsim_index]: after any sequence of
    calls that slot holds the running maximum of the rows, and the slot of
    every other round is what it was before, as are the observed-data
    vectors. *)
Theorem store_sim_rounds_independent (st : PBPOIabstract) (n : nat)
    (cs : list store_call) :
  sim_slots st n -> 0 <= m_mcsim_index st < Z.of_nat n ->
  exists r0 : Row, sim_row st (Z.to_nat (m_mcsim_index st)) = Some r0 /\
  (forall c : store_call,
     apply_store store_sim st c =
       Some (if dgt (row_score (call_row c)) (row_score r0)
             then write_sim st (Z.to_nat (m_mcsim_index st)) (call_row c)
             else st)) /\
  exists st' : PBPOIabstract,
    store_seq store_sim st cs = Some st' /\
    m_mcsim_index st' = m_mcsim_index st /\
    sim_row st' (Z.to_nat (m_mcsim_index st))
      = Some (running_max r0 (map call_row cs)) /\
    (forall r : nat, r <> Z.to_nat (m_mcsim_index st) ->
       sim_row st' r = sim_row st r) /\
    (forall j : nat, obs_row st' j = obs_row st j).
Proof.
  intros Hn Hi.
  destruct (sim_row_Some st n (Z.to_nat (m_mcsim_index st)) Hn) as [r0 H0];
    [lia|].
  exists r0. split; [exact H0|]. split.
  - intros c. apply (apply_store_sim st n); assumption.
  - destruct (store_seq_sim cs st n r0 Hn Hi H0)
      as (st' & Hs & _ & Hr & Hother & Hobs & Hsetup).
    exists st'. repeat split; try assumption. apply Hsetup.
Qed.

Lemma store_sim_rounds_independent_witness :
  exists st', store_seq store_sim (set_sim_store_fun (example_max 32))
                [example_call1; example_call2] = Some st' /\
    sim_row st' 1 = sim_row (example_max 32) 1.
Proof.
  assert (Hn : sim_slots (set_sim_store_fun (example_max 32)) 2)
    by (repeat split).
  assert (Hi : 0 <= m_mcsim_index (set_sim_store_fun (example_max 32))
               < Z.of_nat 2) by (simpl; lia).
  destruct (store_sim_rounds_independent _ 2
              [example_call1; example_call2] Hn Hi)
    as (r0 & _ & _ & st' & Hs & _ & _ & Hother & _).
  exists st'. split; [exact Hs|]. apply (Hother 1%nat). simpl. lia.
Defined.

(** ** A scan as a sequence of calls of the selected storage function *)

Lemma candidate_row_inv (w : Z) (st : PBPOIabstract) (c : candidate)
    (r : Row) :
  candidate_row w st c = Some r ->
  exists (C : Z) (B : double),
    candidate_C w st c = Some C /\ candidate_B st c = Some B /\
    r = mkRow (zone_nr c + 1) (cand_duration c + 1)
          (score w (m_total_count st) C B) (risk_in C B)
          (risk_out w (m_total_count st) C B).
Proof.
  unfold candidate_row. intros H.
  destruct (candidate_C w st c) as [C|]; simpl in H; [|discriminate].
  destruct (candidate_B st c) as [B|]; simpl in H; [|discriminate].
  destruct (int_add (zone_nr c) 1) as [zn|] eqn:Ez; simpl in H;
    [|discriminate].
  destruct (int_add (cand_duration c) 1) as [du|] eqn:Ed; simpl in H;
    [|discriminate].
  apply int_add_inv in Ez as [-> Hz]. apply int_add_inv in Ed as [-> Hd].
  injection H as <-. exists C, B. repeat split.
Qed.

Lemma scan_as_store_seq (w : Z) (p : store_ptr) (cs : list candidate)
    (rows : list Row) (st : PBPOIabstract) :
  store st = p ->
  Forall2 (fun c r => candidate_row w st c = Some r) cs rows ->
  scan w st cs = store_seq (store_fun p) st (zip_with call_of cs rows).
Proof.
  intros Hp HF. revert st Hp HF.
  revert rows. induction cs as [|c cs IH]; intros rows st Hp HF.
  - inversion HF. reflexivity.
  - inversion HF as [|? r ? rows' Hr HF']; subst. simpl.
    rewrite calculate_unfold, Hr. simpl. unfold call_store, apply_store.
    simpl.
    destruct (store_fun (store st) st (storage_index c) (row_score r)
                (relrisk_in r) (relrisk_out r) (zone r) (duration r))
      as [st1|] eqn:E; simpl; [|reflexivity].
    pose proof (store_fun_setup _ _ _ _ _ _ _ _ _ E) as Hsetup.
    apply IH.
    + destruct Hsetup as (_ & _ & _ & _ & _ & _ & _ & Hst). exact Hst.
    + eapply Forall2_impl; [exact HF'|]. intros c' r' Hc'. simpl in Hc'.
      rewrite (candidate_row_setup w st st1 c' Hsetup). exact Hc'.
Qed.

Lemma candidate_rows_exist (w : Z) (st : PBPOIabstract)
    (cs : list candidate) :
  Forall (fun c => is_Some (candidate_row w st c)) cs ->
  exists rows : list Row,
    Forall2 (fun c r => candidate_row w st c = Some r) cs rows.
Proof.
  induction 1 as [|c cs [r Hr] _ [rows IH]].
  - exists []. constructor.
  - exists (r :: rows). constructor; assumption.
Qed.

Lemma call_rows_zip (cs : list candidate) (rows : list Row) :
  length cs = length rows ->
  map call_row (zip_with call_of cs rows) = rows.
Proof.
  revert rows. induction cs as [|c cs IH]; intros [|r rows] Hl;
    simpl in *; try discriminate; [reflexivity|].
  f_equal. apply IH. lia.
Qed.

Lemma call_indices_zip (cs : list candidate) (rows : list Row) :
  length cs = length rows ->
  map call_index (zip_with call_of cs rows) = map storage_index cs.
Proof.
  revert rows. induction cs as [|c cs IH]; intros [|r rows] Hl;
    simpl in *; try discriminate; [reflexivity|].
  f_equal. apply IH. lia.
Qed.

(** ** Sequences of calls of [store_all] *)

Lemma store_seq_all (calls : list store_call) (st : PBPOIabstract)
    (n : nat) :
  obs_slots st n ->
  (forall c, c ∈ calls -> 0 <= call_index c < Z.of_nat n) ->
  exists st', store_seq store_all st calls = Some st' /\
    obs_slots st' n /\ same_setup st st' /\
    (forall j : nat, (forall c, c ∈ calls -> Z.to_nat (call_index c) <> j) ->
       obs_row st' j = obs_row st j) /\
    (NoDup (map call_index calls) ->
     forall c, c ∈ calls ->
       obs_row st' (Z.to_nat (call_index c)) = Some (call_row c)).
Proof.
  revert st. induction calls as [|c calls IH]; intros st Hn Hidx.
  - exists st. simpl. repeat split; try apply Hn.
    intros _ c Hc. inversion Hc.
  - simpl. unfold apply_store.
    assert (Hc : 0 <= call_index c < Z.of_nat n)
      by (apply Hidx; left).
    rewrite (store_all_write st n (call_index c) (call_row c) Hn Hc).
    simpl.
    destruct (IH (write_obs st (Z.to_nat (call_index c)) (call_row c)))
      as (st' & Hs & Hn' & Hsetup & Hother & Hrows).
    + apply obs_slots_write. exact Hn.
    + intros c' Hc'. apply Hidx. right. exact Hc'.
    + exists st'. split; [exact Hs|]. split; [exact Hn'|].
      split; [eapply same_setup_trans;
                [apply same_setup_write_obs|exact Hsetup]|].
      split.
      * intros j Hj. rewrite Hother.
        -- apply obs_row_write_ne. apply Hj. left.
        -- intros c' Hc'. apply Hj. right. exact Hc'.
      * intros Hnd c' Hc'. simpl in Hnd.
        apply NoDup_cons in Hnd as [Hnotin Hnd].
        apply elem_of_cons in Hc' as [->|Hc']; [|apply Hrows; assumption].
        rewrite Hother.
        -- apply (obs_row_write_eq st n); [exact Hn|lia].
        -- intros c' Hc' Heq. apply Hnotin.
           apply list_elem_of_fmap. exists c'. split; [|exact Hc'].
           assert (0 <= call_index c' < Z.of_nat n)
             by (apply Hidx; right; exact Hc').
           lia.
Qed.

(** ** The retained maximum of a scan *)

Lemma retain_seq (st : PBPOIabstract) (n : nat) (calls : list store_call) :
  retain_mode st n ->
  exists (r0 : Row) (st' : PBPOIabstract),
    retained st = Some r0 /\
    store_seq (store_fun (store st)) st calls = Some st' /\
    retained st' = Some (running_max r0 (map call_row calls)) /\
    (forall c, dgt (row_score (call_row c)) (row_score r0) = false ->
       apply_store (store_fun (store st)) st c = Some st).
Proof.
  intros [[Hp Hn]|(Hp & Hn & Hi)]; unfold retained.
  - destruct (obs_row_Some st (S n) 0 Hn) as [r0 H0]; [lia|].
    destruct (store_seq_max calls st n r0 Hn H0)
      as (st' & Hs & _ & Hr & _ & _ & Hsetup).
    exists r0, st'. rewrite Hp. simpl.
    destruct Hsetup as (_ & _ & _ & _ & _ & _ & _ & ->). rewrite Hp.
    repeat split; try assumption.
    intros c Hc. rewrite (apply_store_max st n r0 c Hn H0), Hc. reflexivity.
  - destruct (sim_row_Some st n (Z.to_nat (m_mcsim_index st)) Hn)
      as [r0 H0]; [lia|].
    destruct (store_seq_sim calls st n r0 Hn Hi H0)
      as (st' & Hs & _ & Hr & _ & _ & Hsetup).
    exists r0, st'. rewrite Hp. simpl.
    destruct Hsetup as (_ & _ & _ & _ & _ & _ & -> & ->). rewrite Hp.
    repeat split; try assumption.
    intros c Hc.
    rewrite (apply_store_sim st n r0 c Hn Hi H0), Hc. reflexivity.
Qed.

(** C2: a candidate with [C <= B] scores exactly minus infinity.  Under
    [store_max] and under [store_sim] the call for such a candidate leaves
    the whole state as it is, and after a scan the retained row is the
    row held at the start or the row of a processed candidate with
    [C > B], whose score is not minus infinity. *)
Theorem no_excess_never_retained (w : Z) (st : PBPOIabstract) (n : nat)
    (cs : list candidate) :
  retain_mode st n ->
  Forall (fun c => is_Some (candidate_row w st c)) cs ->
  (forall (total C : Z) (B : double),
     dle (of_Z C) B = true -> score w total C B = R_NegInf) /\
  (forall (c : candidate) (C : Z) (B : double),
     candidate_C w st c = Some C -> candidate_B st c = Some B ->
     is_Some (candidate_row w st c) -> dle (of_Z C) B = true ->
     calculate_candidate w st c = Some st) /\
  exists (st' : PBPOIabstract) (r0 r : Row),
    scan w st cs = Some st' /\
    retained st = Some r0 /\ retained st' = Some r /\
    (r = r0 \/
     exists (c : candidate) (C : Z) (B : double),
       c ∈ cs /\ candidate_row w st c = Some r /\
       candidate_C w st c = Some C /\ candidate_B st c = Some B /\
       dgt (of_Z C) B = true /\ row_score r <> R_NegInf).
Proof.
  intros Hmode Hcs.
  split; [intros total C B H; apply score_no_excess, dle_not_dgt, H|].
  split.
  - intros c C B HC HB [r Hr] Hle.
    destruct (retain_seq st n [] Hmode) as (r0 & _ & _ & _ & _ & Hstep).
    rewrite calculate_unfold, Hr. simpl.
    apply candidate_row_inv in Hr as (C' & B' & HC' & HB' & ->).
    rewrite HC in HC'. rewrite HB in HB'.
    injection HC' as <-. injection HB' as <-.
    apply (Hstep (mkCall (storage_index c) _)). simpl.
    rewrite score_no_excess by (apply dle_not_dgt, Hle).
    apply dgt_neginf.
  - destruct (candidate_rows_exist w st cs Hcs) as [rows Hrows].
    pose proof (Forall2_length _ _ _ Hrows) as Hlen.
    rewrite (scan_as_store_seq w (store st) cs rows st eq_refl Hrows).
    destruct (retain_seq st n (zip_with call_of cs rows) Hmode)
      as (r0 & st' & H0 & Hs & Hr & _).
    rewrite (call_rows_zip cs rows Hlen) in Hr.
    exists st', r0, (running_max r0 rows).
    split; [exact Hs|]. split; [exact H0|]. split; [exact Hr|].
    destruct (running_max_spec rows r0) as (_ & _ & Hcase).
    destruct Hcase as [[Heq _]|(k & Hk & Hgt & _)]; [left; exact Heq|].
    right. set (r := running_max r0 rows) in *.
    destruct (Forall2_lookup_r _ _ _ _ _ Hrows Hk) as (c & Hc & Hcr).
    destruct (candidate_row_inv w st c r Hcr) as (C & B & HC & HB & Heq).
    exists c, C, B. split; [eapply list_elem_of_lookup_2; exact Hc|].
    split; [exact Hcr|]. split; [exact HC|]. split; [exact HB|].
    assert (Hsc : row_score r = score w (m_total_count st) C B)
      by (rewrite Heq; reflexivity).
    split.
    + rewrite Hsc in Hgt. eapply score_excess_inv. exact Hgt.
    + intros Hinf. rewrite Hinf in Hgt.
      unfold R_NegInf in Hgt. rewrite dgt_neginf in Hgt. discriminate.
Qed.

Lemma indices_cover (l : list Z) (n : nat) (i : nat) :
  NoDup l -> (forall x, x ∈ l -> 0 <= x < Z.of_nat n) -> length l = n ->
  (i < n)%nat -> Z.of_nat i ∈ l.
Proof.
  intros Hnd Hrange Hlen Hi.
  assert (Hperm : l ≡ₚ seqZ 0 (Z.of_nat n)).
  { apply submseteq_length_Permutation.
    - apply NoDup_submseteq; [exact Hnd|].
      intros x Hx. apply elem_of_seqZ. specialize (Hrange x Hx). lia.
    - rewrite length_seqZ. lia. }
  rewrite Hperm. apply elem_of_seqZ. lia.
Qed.

Lemma obs_row_beyond (st : PBPOIabstract) (n i : nat) :
  obs_slots st n -> (n <= i)%nat -> obs_row st i = None.
Proof.
  intros (_ & _ & _ & H4 & _) Hi. unfold obs_row.
  rewrite (lookup_ge_None_2 (m_zone_numbers st) i) by lia. reflexivity.
Qed.

(** C6: [store_all] writes the five fields into the slot given by
    [storage_index] and leaves every other slot as it is.  After a scan
    of [n] candidates with distinct indices in [0, n), over vectors of [n]
    slots, the exported table has exactly [n] rows and every row is the
    computed row of the candidate with that index. *)
Theorem store_all_fills_table (w : Z) (st : PBPOIabstract) (n : nat)
    (cs : list candidate) :
  store st = Store_all -> obs_slots st n -> length cs = n ->
  NoDup (map storage_index cs) ->
  (forall c, c ∈ cs -> 0 <= storage_index c < Z.of_nat n) ->
  Forall (fun c => is_Some (candidate_row w st c)) cs ->
  (forall (i : Z) (r : Row), 0 <= i < Z.of_nat n ->
     exists st1,
       store_all st i (row_score r) (relrisk_in r) (relrisk_out r)
         (zone r) (duration r) = Some st1 /\
       obs_row st1 (Z.to_nat i) = Some r /\
       forall j : nat, j <> Z.to_nat i -> obs_row st1 j = obs_row st j) /\
  exists st' : PBPOIabstract,
    scan w st cs = Some st' /\ obs_slots st' n /\
    (forall c, c ∈ cs ->
       df_row (get_scan st') (Z.to_nat (storage_index c))
         = candidate_row w st c) /\
    (forall i : nat, (i < n)%nat ->
       exists c, c ∈ cs /\ storage_index c = Z.of_nat i /\
         df_row (get_scan st') i = candidate_row w st c) /\
    (forall i : nat, (n <= i)%nat -> df_row (get_scan st') i = None).
Proof.
  intros Hp Hn Hlen Hnd Hidx Hcs. split.
  - intros i r Hi. exists (write_obs st (Z.to_nat i) r).
    split; [apply (store_all_write st n); assumption|].
    split; [apply (obs_row_write_eq st n); [exact Hn|lia]|].
    intros j Hj. apply obs_row_write_ne. congruence.
  - destruct (candidate_rows_exist w st cs Hcs) as [rows Hrows].
    pose proof (Forall2_length _ _ _ Hrows) as Hl.
    rewrite (scan_as_store_seq w Store_all cs rows st Hp Hrows). simpl.
    destruct (store_seq_all (zip_with call_of cs rows) st n Hn)
      as (st' & Hs & Hn' & _ & _ & Hwritten).
    { intros call Hcall.
      apply elem_of_lookup_zip_with_1 in Hcall
        as (i & c & r & -> & Hc & _).
      apply Hidx. eapply list_elem_of_lookup_2. exact Hc. }
    rewrite (call_indices_zip cs rows Hl) in Hwritten.
    specialize (Hwritten Hnd).
    assert (Hrow : forall c, c ∈ cs ->
              obs_row st' (Z.to_nat (storage_index c))
                = candidate_row w st c).
    { intros c Hc. apply list_elem_of_lookup_1 in Hc as [i Hc].
      destruct (Forall2_lookup_l _ _ _ _ _ Hrows Hc) as (r & Hr & Hcr).
      rewrite Hcr.
      apply (Hwritten (call_of c r)).
      apply list_elem_of_lookup. exists i.
      rewrite lookup_zip_with, Hc, Hr. reflexivity. }
    exists st'. split; [exact Hs|]. split; [exact Hn'|].
    split; [|split].
    + intros c Hc. rewrite df_row_get_scan. apply Hrow. exact Hc.
    + intros i Hi.
      assert (Hin : Z.of_nat i ∈ map storage_index cs).
      { apply (indices_cover _ n); try assumption.
        - intros x Hx. apply list_elem_of_fmap in Hx as (c & -> & Hc).
          apply Hidx. exact Hc.
        - rewrite length_map. exact Hlen. }
      apply list_elem_of_fmap in Hin as (c & Heq & Hc).
      exists c. split; [exact Hc|]. split; [symmetry; exact Heq|].
      rewrite df_row_get_scan, <- (Hrow c Hc), <- Heq, Nat2Z.id.
      reflexivity.
    + intros i Hi. rewrite df_row_get_scan.
      apply (obs_row_beyond st' n); assumption.
Qed.

Lemma no_excess_never_retained_witness :
  (exists st', scan 32 (example2_max 32) [example2_no_excess; example2_excess]
               = Some st') /\
  calculate_candidate 32 (example2_max 32) example2_no_excess
    = Some (example2_max 32).
Proof.
  assert (Hmode : retain_mode (example2_max 32) 0)
    by (left; repeat split).
  assert (Hcs : Forall (fun c => is_Some (candidate_row 32 (example2_max 32) c))
                  [example2_no_excess; example2_excess]).
  { repeat constructor; eexists; reflexivity. }
  destruct (no_excess_never_retained 32 (example2_max 32) 0
              [example2_no_excess; example2_excess] Hmode Hcs)
    as (_ & Hstep & st' & _ & _ & Hs & _).
  split; [exists st'; exact Hs|].
  apply (Hstep example2_no_excess 1 (DFin (0 + (0 + 2))%R)).
  - reflexivity.
  - reflexivity.
  - eexists; reflexivity.
  - unfold of_Z, dle. destruct (Rle_dec 1 (0 + (0 + 2))); [reflexivity|lra].
Defined.

Lemma store_all_fills_table_witness :
  exists st', scan 32 (example_all 32) [example_cand1; example_cand2]
              = Some st' /\
    df_row (get_scan st') 2 = None.
Proof.
  assert (Hnd : NoDup (map storage_index [example_cand1; example_cand2])).
  { simpl. apply NoDup_cons. split; [|apply NoDup_singleton].
    intros H. apply list_elem_of_singleton in H. discriminate. }
  assert (Hidx : forall c, c ∈ [example_cand1; example_cand2] ->
                   0 <= storage_index c < Z.of_nat 2).
  { intros c Hc. apply elem_of_cons in Hc as [->|Hc]; [simpl; lia|].
    apply list_elem_of_singleton in Hc as ->. simpl; lia. }
  assert (Hcs : Forall (fun c => is_Some (candidate_row 32 (example_all 32) c))
                  [example_cand1; example_cand2]).
  { repeat constructor; eexists; reflexivity. }
  destruct (store_all_fills_table 32 (example_all 32) 2
              [example_cand1; example_cand2] eq_refl
              (conj eq_refl (conj eq_refl (conj eq_refl
                 (conj eq_refl eq_refl)))) eq_refl Hnd Hidx Hcs)
    as (_ & st' & Hs & _ & _ & _ & Hnone).
  exists st'. split; [exact Hs|]. apply Hnone. lia.
Defined.

(** ** The aggregation done by the constructor *)

Lemma sum_list_nonneg (l : list Z) : Forall (fun x => 0 <= x) l -> 0 <= sum_list l.
Proof. induction 1; simpl; lia. Qed.

Lemma sum_list_app (l k : list Z) : sum_list (l ++ k) = sum_list l + sum_list k.
Proof. induction l as [|x l IH]; simpl; lia. Qed.

Lemma sum_all_concat (m : umat) : sum_list (concat m) = sum_all m.
Proof.
  unfold sum_all. induction m as [|col m IH]; simpl; [reflexivity|].
  rewrite sum_list_app, IH. reflexivity.
Qed.

(** Without overflow the word sum is the exact sum. *)
Lemma foldl_wrap_exact (w : Z) (l : list Z) (acc : Z) :
  Forall (fun x => 0 <= x) l -> 0 <= acc -> acc + sum_list l < 2 ^ w ->
  foldl (fun a x => wrap w (a + x)) acc l = acc + sum_list l.
Proof.
  intros Hl. revert acc. induction Hl as [|x l Hx Hl IH]; intros acc Ha Hs.
  - simpl. lia.
  - simpl in *. pose proof (sum_list_nonneg l Hl).
    assert (Hw : wrap w (acc + x) = acc + x)
      by (unfold wrap; apply Z.mod_small; lia).
    rewrite Hw, IH by lia. lia.
Qed.

Lemma uword_entries_nonneg (w : Z) (m : umat) :
  uword_entries w m -> Forall (Forall (fun x => 0 <= x)) m.
Proof.
  unfold uword_entries. intros H.
  eapply Forall_impl; [exact H|]. intros col Hcol.
  eapply Forall_impl; [exact Hcol|]. simpl. intros; lia.
Qed.

Lemma accu_u_exact (w : Z) (m : umat) :
  Forall (Forall (fun x => 0 <= x)) m -> sum_all m < 2 ^ w ->
  accu_u w m = sum_all m.
Proof.
  intros Hm Hs. unfold accu_u.
  rewrite foldl_wrap_exact.
  - rewrite sum_all_concat. lia.
  - apply Forall_concat. exact Hm.
  - lia.
  - rewrite sum_all_concat. lia.
Qed.

Lemma cumsum_col_last (w : Z) (col : list Z) (acc : Z) :
  Forall (fun x => 0 <= x) col -> 0 <= acc -> acc + sum_list col < 2 ^ w ->
  default acc (last (cumsum_col_u w acc col)) = acc + sum_list col.
Proof.
  intros Hcol. revert acc.
  induction Hcol as [|x col Hx Hcol IH]; intros acc Ha Hs.
  - simpl. lia.
  - simpl in *. pose proof (sum_list_nonneg col Hcol).
    assert (Hw : wrap w (acc + x) = acc + x)
      by (unfold wrap; apply Z.mod_small; lia).
    rewrite Hw.
    assert (IH' := IH (acc + x) ltac:(lia) ltac:(lia)).
    destruct (cumsum_col_u w (acc + x) col) as [|y ys] eqn:E.
    + simpl in *. lia.
    + rewrite last_cons_cons.
      destruct (last (y :: ys)) as [z|] eqn:El.
      * simpl in *. lia.
      * apply last_None in El. discriminate.
Qed.

Lemma final_row_sum_exact (w : Z) (m : umat) :
  Forall (Forall (fun x => 0 <= x)) m -> sum_all m < 2 ^ w ->
  final_row_sum (cumsum_u w m) = sum_all m.
Proof.
  unfold final_row_sum, sum_all, cumsum_u.
  induction 1 as [|col m Hcol Hm IH]; intros Hs; [reflexivity|].
  simpl in *.
  assert (0 <= sum_list (map sum_list m)).
  { apply sum_list_nonneg. apply Forall_fmap.
    eapply Forall_impl; [exact Hm|]. intros c Hc. simpl.
    apply sum_list_nonneg. exact Hc. }
  pose proof (sum_list_nonneg col Hcol).
  rewrite IH by lia.
  pose proof (cumsum_col_last w col 0 Hcol) as Hlast.
  simpl in Hlast. rewrite Hlast by lia. reflexivity.
Qed.

(** C8, with the range of [int] made explicit: when the entries of the
    raw count matrix are unsigned words whose exact sum is at most
    [INT_MAX], the total count stored by the constructor is the sum over
    all locations of the last entry of the cumulative counts, which is the
    sum of all raw counts; a scan and every call of a storage function
    leave the cumulative counts and the total as they are. *)
Theorem total_count_invariant (w : Z) (fresh : nat -> double)
    (counts : umat) (baselines : mat) (store_everything : bool)
    (base : PBPOIabstract) :
  32 <= w -> uword_entries w counts -> sum_all counts <= INT_MAX ->
  let st := PBPOIabstract_new w fresh counts baselines store_everything base in
  m_total_count st = final_row_sum (m_counts st) /\
  m_total_count st = sum_all counts /\
  (forall (cs : list candidate) (st' : PBPOIabstract),
     scan w st cs = Some st' ->
     m_counts st' = m_counts st /\ m_total_count st' = m_total_count st /\
     m_total_count st' = final_row_sum (m_counts st')) /\
  (forall (p : store_ptr) (i : Z) (s a b : double) (z d : Z)
          (st' : PBPOIabstract),
     store_fun p st i s a b z d = Some st' ->
     m_total_count st' = final_row_sum (m_counts st')).
Proof.
  intros Hw Hentries Hsum st.
  pose proof (uword_entries_nonneg w counts Hentries) as Hnn.
  pose proof (pow2_wide w Hw) as Hpow.
  assert (Hlt : sum_all counts < 2 ^ w) by (unfold INT_MAX in Hsum; lia).
  assert (H0 : 0 <= sum_all counts).
  { unfold sum_all. apply sum_list_nonneg, Forall_fmap.
    eapply Forall_impl; [exact Hnn|]. intros c Hc. simpl.
    apply sum_list_nonneg. exact Hc. }
  assert (Htotal : m_total_count st = sum_all counts).
  { unfold st. simpl. rewrite accu_u_exact by assumption.
    apply to_int_small. unfold INT_MIN. lia. }
  assert (Hfinal : final_row_sum (m_counts st) = sum_all counts).
  { unfold st. simpl. apply final_row_sum_exact; assumption. }
  split; [congruence|]. split; [exact Htotal|]. split.
  - intros cs st' Hscan.
    destruct (scan_setup w cs st st' Hscan) as (Hc & _ & _ & Ht & _).
    split; [exact Hc|]. split; [exact Ht|]. congruence.
  - intros p i s a b z d st' Hst.
    destruct (store_fun_setup p st st' i s a b z d Hst)
      as (Hc & _ & _ & Ht & _).
    congruence.
Qed.

Lemma total_count_invariant_witness :
  m_total_count (example2_max 32) = 10 /\
  final_row_sum (m_counts (example2_max 32)) = 10.
Proof.
  assert (Hw : 32 <= 32) by lia.
  assert (He : uword_entries 32 example2_counts).
  { unfold uword_entries, example2_counts.
    repeat constructor; vm_compute; congruence. }
  assert (Hs : sum_all example2_counts <= INT_MAX)
    by (vm_compute; congruence).
  destruct (total_count_invariant 32 example_fresh example2_counts
              example2_baselines false (example_base_max example2_counts)
              Hw He Hs) as (H1 & H2 & _).
  fold (example2_max 32) in H1, H2.
  split; [exact H2|]. rewrite <- H1. exact H2.
Defined.

(** C8 as stated fails when the sum of the raw counts is not a value of
    [int]: for the counts [2147483647, 1] at one location the constructor
    stores [-2^31], while the last entry of the cumulative counts is
    [2^31]. *)
Lemma total_count_overflow :
  uword_entries 32 overflow_counts /\
  m_total_count (overflow_object 32) = - 2147483648 /\
  final_row_sum (m_counts (overflow_object 32)) = 2147483648 /\
  sum_all overflow_counts = 2147483648 /\
  m_total_count (overflow_object 32)
    <> final_row_sum (m_counts (overflow_object 32)) /\
  m_total_count (overflow_object 64)
    <> final_row_sum (m_counts (overflow_object 64)).
Proof.
  split.
  { unfold uword_entries, overflow_counts.
    repeat constructor; vm_compute; congruence. }
  repeat split; vm_compute; congruence.
Qed.

(** ** The boundary case [C = total] on the small instance *)

Lemma example_baseline_total : DFin (0 + (0 + 2 + 2)) = DFin 4.
Proof. f_equal. lra. Qed.

Lemma example_cand2_row :
  candidate_row 32 (example_all 32) example_cand2 =
    Some (mkRow 1 2 DNaN (DFin (8 / 4)) (DFin 0)) /\
  candidate_row 32 (example_max 32) example_cand2 =
    Some (mkRow 1 2 DNaN (DFin (8 / 4)) (DFin 0)).
Proof.
  assert (Hb : (0 < 4)%R) by lra.
  assert (Hbt : (4 < IZR 8)%R) by lra.
  assert (Ht : 8 <= INT_MAX) by (unfold INT_MAX; lia).
  destruct (score_boundary 32 8 4 ltac:(lia) Hb Hbt Ht) as [Hout Hscore].
  assert (Hin : risk_in 8 (DFin 4) = DFin (8 / 4))
    by (apply risk_in_quotient; lra).
  split.
  - change (candidate_row 32 (example_all 32) example_cand2)
      with (Some (mkRow 1 2 (score 32 8 8 (DFin (0 + (0 + 2 + 2))))
                    (risk_in 8 (DFin (0 + (0 + 2 + 2))))
                    (risk_out 32 8 8 (DFin (0 + (0 + 2 + 2)))))).
    rewrite example_baseline_total, Hout, Hscore, Hin. reflexivity.
  - change (candidate_row 32 (example_max 32) example_cand2)
      with (Some (mkRow 1 2 (score 32 8 8 (DFin (0 + (0 + 2 + 2))))
                    (risk_in 8 (DFin (0 + (0 + 2 + 2))))
                    (risk_out 32 8 8 (DFin (0 + (0 + 2 + 2)))))).
    rewrite example_baseline_total, Hout, Hscore, Hin. reflexivity.
Qed.

(** C1 at its boundary case, on the instance with counts [3, 5] and
    baselines [2, 2]: the candidate covering the whole window has
    [C = 8 = total] and [B = 4], so [C > B], the out-of-zone risk is [0]
    and the computed score is NaN, not a finite number.  [store_all]
    stores the NaN; [store_max] never retains the candidate, because no
    comparison with NaN holds. *)
Theorem boundary_score_is_nan :
  m_total_count (example_all 32) = 8 /\
  candidate_C 32 (example_all 32) example_cand2 = Some 8 /\
  candidate_B (example_all 32) example_cand2 = Some (DFin 4) /\
  dgt (of_Z 8) (DFin 4) = true /\
  risk_out 32 8 8 (DFin 4) = DFin 0 /\
  score 32 8 8 (DFin 4) = DNaN /\
  is_finite (score 32 8 8 (DFin 4)) = false /\
  (exists (st' : PBPOIabstract) (r : Row),
     calculate_candidate 32 (example_all 32) example_cand2 = Some st' /\
     df_row (get_scan st') 1 = Some r /\
     zone r = 1 /\ duration r = 2 /\ row_score r = DNaN) /\
  calculate_candidate 32 (example_max 32) example_cand2
    = Some (example_max 32).
Proof.
  assert (Hb : (0 < 4)%R) by lra.
  assert (Hbt : (4 < IZR 8)%R) by lra.
  assert (Ht : 8 <= INT_MAX) by (unfold INT_MAX; lia).
  destruct (score_boundary 32 8 4 ltac:(lia) Hb Hbt Ht) as [Hout Hscore].
  destruct example_cand2_row as [Hall Hmax].
  split; [reflexivity|]. split; [reflexivity|].
  split.
  { change (candidate_B (example_all 32) example_cand2)
      with (Some (DFin (0 + (0 + 2 + 2)))).
    rewrite example_baseline_total. reflexivity. }
  split.
  { unfold of_Z, dgt. destruct (Rlt_dec 4 (IZR 8)); [reflexivity|lra]. }
  split; [exact Hout|]. split; [exact Hscore|].
  split; [rewrite Hscore; reflexivity|].
  split.
  - exists (write_obs (example_all 32) 1
              (mkRow 1 2 DNaN (DFin (8 / 4)) (DFin 0))),
      (mkRow 1 2 DNaN (DFin (8 / 4)) (DFin 0)).
    split.
    + rewrite calculate_unfold, Hall. reflexivity.
    + repeat split.
  - rewrite calculate_unfold, Hmax. reflexivity.
Qed.

(** ** The in-zone count of a candidate lies between zero and the total *)

Lemma cumsum_col_prefix (w : Z) (col : list Z) (acc : Z) (r : nat) (e : Z) :
  Forall (fun x => 0 <= x) col -> 0 <= acc -> acc + sum_list col < 2 ^ w ->
  cumsum_col_u w acc col !! r = Some e -> acc <= e <= acc + sum_list col.
Proof.
  intros Hcol. revert acc r.
  induction Hcol as [|x col Hx Hcol IH]; intros acc r Ha Hs Hr.
  - destruct r; discriminate.
  - simpl in *. pose proof (sum_list_nonneg col Hcol).
    assert (Hw : wrap w (acc + x) = acc + x)
      by (unfold wrap; apply Z.mod_small; lia).
    rewrite Hw in Hr. destruct r as [|r]; simpl in Hr.
    + injection Hr as <-. lia.
    + apply IH in Hr; lia.
Qed.

Lemma lookup_sum_le (v : list Z) (i : nat) (x : Z) :
  Forall (fun x => 0 <= x) v -> v !! i = Some x -> 0 <= x <= sum_list v.
Proof.
  intros Hv. revert i. induction Hv as [|y v Hy Hv IH]; intros i Hi.
  - destruct i; discriminate.
  - pose proof (sum_list_nonneg v Hv). destruct i as [|i]; simpl in *.
    + injection Hi as <-. lia.
    + apply IH in Hi. lia.
Qed.

Lemma sum_list_insert (v : list Z) (i : nat) (x y : Z) :
  v !! i = Some x -> sum_list (<[i := y]> v) = sum_list v - x + y.
Proof.
  revert i. induction v as [|z v IH]; intros i Hi.
  - destruct i; discriminate.
  - destruct i as [|i]; simpl in *.
    + injection Hi as <-. lia.
    + rewrite (IH i Hi). lia.
Qed.

Lemma picked_other (zone : list nat) (v es : list Z) (i : nat) (y : Z) :
  i ∉ zone ->
  Forall2 (fun j e => exists x, v !! j = Some x /\ 0 <= e <= x) zone es ->
  Forall2 (fun j e => exists x, <[i := y]> v !! j = Some x /\ 0 <= e <= x)
    zone es.
Proof.
  intros Hnotin HF.
  induction HF as [|j e zone es (x & Hj & He) HF IH]; constructor.
  - exists x. split; [|exact He].
    rewrite list_lookup_insert_ne; [exact Hj|].
    intros ->. apply Hnotin. left.
  - apply IH. intros Hin. apply Hnotin. right. exact Hin.
Qed.

(** Entries picked at distinct positions sum to at most the whole. *)
Lemma picked_sum_le (zone : list nat) (v es : list Z) :
  Forall (fun x => 0 <= x) v -> NoDup zone ->
  Forall2 (fun i e => exists x, v !! i = Some x /\ 0 <= e <= x) zone es ->
  0 <= sum_list es <= sum_list v.
Proof.
  revert v es. induction zone as [|i zone IH]; intros v es Hv Hnd HF.
  - inversion HF; subst. simpl. pose proof (sum_list_nonneg v Hv). lia.
  - inversion HF as [|? e ? es' (x & Hi & He) HF']; subst.
    apply NoDup_cons in Hnd as [Hnotin Hnd]. simpl.
    assert (Hrest : 0 <= sum_list es' <= sum_list (<[i := 0]> v)).
    { apply IH; [apply Forall_insert; [exact Hv|lia]|exact Hnd|].
      apply picked_other; assumption. }
    rewrite (sum_list_insert v i x 0 Hi) in Hrest. lia.
Qed.

Lemma submat_row_entries {A} (m : list (list A)) (r : nat) (zone : uvec)
    (cs : list (list A)) :
  submat m [r] zone = Some cs ->
  Forall2 (fun c col' => exists col e,
             m !! c = Some col /\ col !! r = Some e /\ col' = [e]) zone cs.
Proof.
  unfold submat. intros H. apply mapM_Some_1 in H.
  eapply Forall2_impl; [exact H|]. intros c col' Hc. simpl in Hc.
  destruct (m !! c) as [col|]; simpl in Hc; [|discriminate].
  destruct (col !! r) as [e|] eqn:Er; simpl in Hc; [|discriminate].
  injection Hc as <-. exists col, e. auto.
Qed.

(** X18: for tables built by the constructor from counts whose sum is a
    value of [int], the in-zone count of a candidate over a zone of
    distinct locations lies between zero and the stored total, so the
    unsigned difference [m_total_count - C] does not wrap. *)
Lemma candidate_C_bounds (w : Z) (fresh : nat -> double) (counts : umat)
    (baselines : mat) (store_everything : bool) (base : PBPOIabstract)
    (c : candidate) (C : Z) :
  32 <= w -> uword_entries w counts -> sum_all counts <= INT_MAX ->
  NoDup (current_zone c) ->
  candidate_C w
    (PBPOIabstract_new w fresh counts baselines store_everything base) c
    = Some C ->
  0 <= C <=
    m_total_count
      (PBPOIabstract_new w fresh counts baselines store_everything base).
Proof.
  intros Hw Hentries Hsum Hnd HC.
  pose proof (uword_entries_nonneg w counts Hentries) as Hnn.
  pose proof (pow2_wide w Hw) as Hpow.
  assert (Hlt : sum_all counts < 2 ^ w) by (unfold INT_MAX in Hsum; lia).
  assert (Hv : Forall (fun x => 0 <= x) (map sum_list counts)).
  { apply Forall_fmap. eapply Forall_impl; [exact Hnn|].
    intros col Hcol. simpl. apply sum_list_nonneg. exact Hcol. }
  assert (Htotal : m_total_count
            (PBPOIabstract_new w fresh counts baselines store_everything base)
            = sum_all counts).
  { simpl. rewrite accu_u_exact by assumption.
    apply to_int_small. pose proof (sum_list_nonneg _ Hv).
    unfold sum_all, INT_MIN in *. lia. }
  rewrite Htotal. clear Htotal.
  unfold candidate_C, tail1 in HC. simpl in HC.
  destruct (last (current_rows c)) as [r|]; simpl in HC; [|discriminate].
  destruct (submat (cumsum_u w counts) [r] (current_zone c)) as [cs|] eqn:E;
    simpl in HC; [|discriminate].
  injection HC as <-.
  apply submat_row_entries in E.
  assert (HF : Forall2 (fun i e => exists x,
                  map sum_list counts !! i = Some x /\ 0 <= e <= x)
                 (current_zone c) (concat cs)).
  { induction E as [|i col' zone cs' (col & e & Hcol & He & ->) E IH].
    - constructor.
    - simpl. apply NoDup_cons in Hnd as [_ Hnd]. constructor; [|auto].
      unfold cumsum_u in Hcol.
      apply list_lookup_fmap_Some in Hcol as (raw & -> & Eraw).
      assert (Hsum_i : map sum_list counts !! i = Some (sum_list raw)).
      { apply list_lookup_fmap_Some. exists raw. split; [reflexivity|exact Eraw]. }
      exists (sum_list raw). split; [exact Hsum_i|].
      assert (Hraw : Forall (fun x => 0 <= x) raw)
        by (eapply Forall_lookup_1; eassumption).
      assert (0 <= sum_list raw <= sum_list (map sum_list counts)).
      { apply (lookup_sum_le _ i); [exact Hv|exact Hsum_i]. }
      apply (cumsum_col_prefix w raw 0 r e) in He;
        unfold sum_all in *; try lia. exact Hraw. }
  pose proof (picked_sum_le _ _ _ Hv Hnd HF) as Hle.
  fold (sum_all counts) in Hle.
  assert (Hes : Forall (fun x => 0 <= x) (concat cs)).
  { clear -HF. induction HF as [|i e zone es (x & _ & He) HF IH];
      constructor; [lia|exact IH]. }
  unfold accu_u. rewrite foldl_wrap_exact; [lia|exact Hes|lia|lia].
Qed.

(** * Further properties of the constructor and of [calculate] *)

(** ** Cumulative counts *)

Lemma wrap_0 (w : Z) : wrap w 0 = 0.
Proof. unfold wrap. apply Zmod_0_l. Qed.

Lemma wrap_add_l (w a b : Z) : wrap w (wrap w a + b) = wrap w (a + b).
Proof. unfold wrap. apply Zplus_mod_idemp_l. Qed.

Lemma wrap_add_r (w a b : Z) : wrap w (a + wrap w b) = wrap w (a + b).
Proof. unfold wrap. apply Zplus_mod_idemp_r. Qed.

Lemma cumsum_col_u_length (w : Z) (col : list Z) (acc : Z) :
  length (cumsum_col_u w acc col) = length col.
Proof.
  revert acc. induction col as [|x col IH]; intros acc; simpl;
    [reflexivity|]. by rewrite IH.
Qed.

(** Entry [r] of a cumulative column is the word sum of the entries
    [0 .. r] of the raw column. *)
Lemma cumsum_col_u_lookup (w : Z) (col : list Z) (a : Z) (r : nat) :
  (r < length col)%nat ->
  cumsum_col_u w (wrap w a) col !! r
    = Some (wrap w (a + sum_list (take (S r) col))).
Proof.
  revert a r. induction col as [|x col IH]; intros a r Hr; simpl in Hr;
    [lia|].
  simpl. rewrite wrap_add_l. destruct r as [|r]; simpl.
  - do 2 f_equal. lia.
  - rewrite IH by lia. do 2 f_equal. lia.
Qed.

Lemma foldl_wrap_sum (w : Z) (l : list Z) (a : Z) :
  foldl (fun acc x => wrap w (acc + x)) (wrap w a) l
    = wrap w (a + sum_list l).
Proof.
  revert a. induction l as [|x l IH]; intros a; simpl.
  - f_equal. lia.
  - rewrite wrap_add_l, IH. f_equal. lia.
Qed.

Lemma accu_u_wrap (w : Z) (m : umat) : accu_u w m = wrap w (sum_all m).
Proof.
  unfold accu_u. pose proof (foldl_wrap_sum w (concat m) 0) as H.
  rewrite wrap_0 in H. rewrite H, sum_all_concat. reflexivity.
Qed.

Lemma cumsum_col_u_last (w : Z) (col : list Z) :
  default 0 (last (cumsum_col_u w 0 col)) = wrap w (sum_list col).
Proof.
  rewrite last_lookup, cumsum_col_u_length.
  destruct col as [|x col]; [symmetry; apply wrap_0|].
  replace (pred (length (x :: col))) with (length col) by reflexivity.
  pose proof (cumsum_col_u_lookup w (x :: col) 0 (length col)) as H.
  rewrite wrap_0 in H. rewrite H by (simpl; lia).
  rewrite take_ge by (simpl; lia). reflexivity.
Qed.

Lemma final_row_sum_wrap (w : Z) (m : umat) :
  wrap w (final_row_sum (cumsum_u w m)) = wrap w (sum_all m).
Proof.
  unfold final_row_sum, sum_all, cumsum_u.
  induction m as [|col m IH]; [reflexivity|].
  simpl. rewrite cumsum_col_u_last, wrap_add_l.
  rewrite <- wrap_add_r, IH, wrap_add_r. reflexivity.
Qed.

(** X1: the constructor leaves in [m_counts] a matrix of the shape of
    [counts] whose entry at row [r] of column [loc] is the sum of the raw
    counts of that column over the rows [0 .. r], reduced modulo [2^w]. *)
Theorem cumulative_counts_entry (w : Z) (fresh : nat -> double)
    (counts : umat) (baselines : mat) (store_everything : bool)
    (base : PBPOIabstract) (loc r : nat) (col : list Z) :
  counts !! loc = Some col -> (r < length col)%nat ->
  let st := PBPOIabstract_new w fresh counts baselines store_everything base in
  length (m_counts st) = length counts /\
  exists ccol : list Z,
    m_counts st !! loc = Some ccol /\ length ccol = length col /\
    ccol !! r = Some (wrap w (sum_list (take (S r) col))).
Proof.
  intros Hloc Hr st. unfold st. simpl. unfold cumsum_u.
  split; [apply length_map|].
  exists (cumsum_col_u w 0 col). split; [|split].
  - apply list_lookup_fmap_Some. exists col. split; [reflexivity|exact Hloc].
  - apply cumsum_col_u_length.
  - pose proof (cumsum_col_u_lookup w col 0 r Hr) as H.
    rewrite wrap_0 in H. exact H.
Qed.

Lemma cumulative_counts_entry_witness :
  exists ccol, m_counts (example_all 32) !! 0%nat = Some ccol /\
    ccol !! 1%nat = Some 8.
Proof.
  destruct (cumulative_counts_entry 32 example_fresh example_counts
              example_baselines true (example_base example_counts)
              0 1 [3; 5] eq_refl ltac:(simpl; lia))
    as (_ & ccol & H1 & _ & H2).
  exists ccol. split; [exact H1|]. rewrite H2. reflexivity.
Defined.

(** X2: for every raw count matrix, also one whose sum overflows, the
    total stored by the constructor is the [int] conversion of the word
    sum of the last entries of the cumulative columns. *)
Theorem total_count_modular (w : Z) (fresh : nat -> double)
    (counts : umat) (baselines : mat) (store_everything : bool)
    (base : PBPOIabstract) :
  m_total_count
    (PBPOIabstract_new w fresh counts baselines store_everything base)
  = to_int
      (wrap w
         (final_row_sum
            (m_counts
               (PBPOIabstract_new w fresh counts baselines store_everything
                  base)))).
Proof. simpl. rewrite final_row_sum_wrap, accu_u_wrap. reflexivity. Qed.

(** ** The in-zone count and baseline of a candidate *)

Lemma zone_count_cons (counts : umat) (loc : nat) (zone : uvec) (r : nat) :
  zone_count counts (loc :: zone) r
  = sum_list (take (S r) (default [] (counts !! loc)))
    + zone_count counts zone r.
Proof. reflexivity. Qed.

Lemma picked_counts_sum (w : Z) (counts : umat) (r : nat) (zone : uvec)
    (cs : list (list Z)) :
  Forall2 (fun c col' => exists col e,
             cumsum_u w counts !! c = Some col /\ col !! r = Some e /\
             col' = [e]) zone cs ->
  wrap w (sum_all cs) = wrap w (zone_count counts zone r).
Proof.
  induction 1 as [|loc col' zone cs (col & e & Hcol & He & ->) _ IH];
    [reflexivity|].
  rewrite zone_count_cons. unfold sum_all in *. simpl.
  unfold cumsum_u in Hcol.
  apply list_lookup_fmap_Some in Hcol as (raw & -> & Hraw).
  assert (Hr : (r < length raw)%nat).
  { apply lookup_lt_Some in He. rewrite cumsum_col_u_length in He. exact He. }
  pose proof (cumsum_col_u_lookup w raw 0 r Hr) as Hlook.
  rewrite wrap_0, He in Hlook. injection Hlook as ->.
  assert (Hdef : default [] (counts !! loc) = raw).
  { pose proof Hraw as Hraw'. unfold umat in *. by rewrite Hraw'. }
  rewrite Hdef. simpl.
  rewrite (Z.add_0_l (sum_list (take (S r) raw))), Z.add_0_r.
  rewrite wrap_add_l, <- wrap_add_r, IH, wrap_add_r. reflexivity.
Qed.

(** X3: the in-zone count that [calculate] reads from the cumulative
    table of a constructed object is the number of raw counts at the
    locations of the zone over the rows [0 .. r], where [r] is the last
    entry of [current_rows], reduced modulo [2^w]. *)
Theorem candidate_count_exact (w : Z) (fresh : nat -> double)
    (counts : umat) (baselines : mat) (store_everything : bool)
    (base : PBPOIabstract) (c : candidate) (C : Z) :
  candidate_C w
    (PBPOIabstract_new w fresh counts baselines store_everything base) c
    = Some C ->
  exists r : nat,
    last (current_rows c) = Some r /\
    C = wrap w (zone_count counts (current_zone c) r).
Proof.
  unfold candidate_C, tail1. simpl. intros HC.
  destruct (last (current_rows c)) as [r|]; simpl in HC; [|discriminate].
  destruct (submat (cumsum_u w counts) [r] (current_zone c)) as [cs|] eqn:E;
    simpl in HC; [|discriminate].
  injection HC as <-. exists r. split; [reflexivity|].
  rewrite accu_u_wrap. apply picked_counts_sum.
  apply submat_row_entries. exact E.
Qed.

Lemma candidate_count_exact_witness :
  exists r : nat,
    last (current_rows example_cand2) = Some r /\
    8 = wrap 32 (zone_count example_counts (current_zone example_cand2) r).
Proof.
  apply (candidate_count_exact 32 example_fresh example_counts
           example_baselines true (example_base example_counts)
           example_cand2 8).
  reflexivity.
Defined.

Lemma cumsum_col_d_length (col : list double) (acc : double) :
  length (cumsum_col_d acc col) = length col.
Proof.
  revert acc. induction col as [|x col IH]; intros acc; simpl;
    [reflexivity|]. by rewrite IH.
Qed.

Lemma cumsum_col_d_lookup (col : list double) (a : R) (r : nat) :
  Forall (fun d => is_finite d = true) col -> (r < length col)%nat ->
  exists e : R,
    cumsum_col_d (DFin a) col !! r = Some (DFin e) /\
    e = (a + Rsum (map dval (take (S r) col)))%R.
Proof.
  intros Hcol. revert a r.
  induction Hcol as [|x col Hx Hcol IH]; intros a r Hr; simpl in Hr; [lia|].
  destruct x as [| |x]; try discriminate. simpl.
  destruct r as [|r]; simpl.
  - eexists. split; [reflexivity|]. lra.
  - destruct (IH (a + x)%R r ltac:(lia)) as (e & He & Heq).
    exists e. split; [exact He|]. rewrite Heq. lra.
Qed.

Lemma Rsum_pos (l : list R) :
  l <> [] -> Forall (fun x => (0 < x)%R) l -> (0 < Rsum l)%R.
Proof.
  intros Hne Hl. destruct Hl as [|x l Hx Hl]; [congruence|]. clear Hne.
  simpl. assert (0 <= Rsum l)%R; [|lra].
  induction Hl as [|y l Hy Hl IH]; simpl; lra.
Qed.

(** The value of [B] for a candidate whose [calculate] reads the
    cumulative baselines of finite raw baselines, rounding and overflow
    left aside. *)
Lemma candidate_B_value (w : Z) (fresh : nat -> double) (counts : umat)
    (baselines : mat) (store_everything : bool) (base : PBPOIabstract)
    (c : candidate) (B : double) :
  all_finite baselines ->
  candidate_B
    (PBPOIabstract_new w fresh counts baselines store_everything base) c
    = Some B ->
  exists (r : nat) (b : R),
    last (current_rows c) = Some r /\
    Forall (fun loc => exists raw, baselines !! loc = Some raw /\
                         (r < length raw)%nat) (current_zone c) /\
    B = DFin b /\ b = zone_baseline baselines (current_zone c) r.
Proof.
  intros Hfin. unfold candidate_B, tail1. simpl. intros HB.
  destruct (last (current_rows c)) as [r|]; simpl in HB; [|discriminate].
  destruct (submat (cumsum_d baselines) [r] (current_zone c)) as [cs|] eqn:E;
    simpl in HB; [|discriminate].
  injection HB as <-. exists r.
  apply submat_row_entries in E. unfold accu_d, zone_baseline.
  assert (Hgen : forall a : R,
            Forall (fun loc => exists raw, baselines !! loc = Some raw /\
                                 (r < length raw)%nat) (current_zone c) /\
            exists b : R,
              foldl dadd (DFin a) (concat cs) = DFin b /\
              b = (a + Rsum
                     (map (fun loc =>
                             Rsum (map dval
                                     (take (S r)
                                        (default [] (baselines !! loc)))))
                        (current_zone c)))%R).
  { induction E as [|loc col' zone cs (col & e & Hcol & He & ->) _ IH];
      intros a.
    - split; [constructor|]. exists a. split; [reflexivity|]. simpl. lra.
    - unfold cumsum_d in Hcol.
      apply list_lookup_fmap_Some in Hcol as (raw & -> & Hraw).
      assert (Hr : (r < length raw)%nat).
      { apply lookup_lt_Some in He. rewrite cumsum_col_d_length in He.
        exact He. }
      assert (Hrawfin : Forall (fun d => is_finite d = true) raw)
        by (eapply Forall_lookup_1; eassumption).
      destruct (cumsum_col_d_lookup raw 0 r Hrawfin Hr) as (x & Hx & Hxeq).
      rewrite He in Hx. injection Hx as ->.
      assert (Hdef : default [] (baselines !! loc) = raw).
      { pose proof Hraw as Hraw'. unfold mat in *. by rewrite Hraw'. }
      destruct (IH (a + x)%R) as (Hzone & b & Hb & Hbeq).
      split.
      + constructor; [|exact Hzone]. exists raw. split; [exact Hraw|exact Hr].
      + exists b. simpl. split; [exact Hb|].
        rewrite Hbeq, Hdef, Hxeq. lra. }
  destruct (Hgen 0%R) as (Hzone & b & Hb & Hbeq).
  exists b. split; [reflexivity|]. split; [exact Hzone|].
  split; [exact Hb|]. rewrite Hbeq. lra.
Qed.

Lemma example_baselines_positive :
  all_positive example_baselines /\ all_finite example_baselines.
Proof.
  split; repeat constructor; eexists; split; try reflexivity; lra.
Qed.

Lemma all_positive_finite (m : mat) : all_positive m -> all_finite m.
Proof.
  unfold all_positive, all_finite. intros H.
  eapply Forall_impl; [exact H|]. intros col Hcol.
  eapply Forall_impl; [exact Hcol|]. simpl. intros d (x & -> & _).
  reflexivity.
Qed.

(** X5: when every raw baseline is a finite number above zero and the
    zone is not empty, the in-zone baseline [B] of every candidate for
    which the tables are read successfully compares greater than zero: the
    division [C / B] is not a division by zero and the in-zone relative
    risk is not NaN. *)
Theorem positive_baselines_no_zero_division (w : Z) (fresh : nat -> double)
    (counts : umat) (baselines : mat) (store_everything : bool)
    (base : PBPOIabstract) (c : candidate) (B : double) :
  all_positive baselines -> current_zone c <> [] ->
  candidate_B
    (PBPOIabstract_new w fresh counts baselines store_everything base) c
    = Some B ->
  dgt B (DFin 0) = true /\ B <> DFin 0 /\
  forall C : Z, is_nan (risk_in C B) = false.
Proof.
  intros Hpos Hne HB.
  destruct (candidate_B_value w fresh counts baselines store_everything
              base c B (all_positive_finite _ Hpos) HB)
    as (r & b & Hr & Hzone & -> & Hbeq).
  assert (Hb : (0 < b)%R).
  { rewrite Hbeq. unfold zone_baseline. apply Rsum_pos.
    - destruct (current_zone c); [congruence|discriminate].
    - apply Forall_fmap. eapply Forall_impl; [exact Hzone|].
      intros loc (raw & Hraw & Hlen). simpl.
      assert (Hdef : default [] (baselines !! loc) = raw).
      { pose proof Hraw as Hraw'. unfold mat in *. by rewrite Hraw'. }
      rewrite Hdef. apply Rsum_pos.
      + destruct raw; simpl in *; [lia|discriminate].
      + apply Forall_fmap, Forall_take.
        assert (Hrawpos : Forall (fun d => exists x, d = DFin x /\ (0 < x)%R)
                            raw) by (eapply Forall_lookup_1; eassumption).
        eapply Forall_impl; [exact Hrawpos|].
        intros d (x & -> & Hx). exact Hx. }
  split; [|split].
  - simpl. destruct (Rlt_dec 0 b); [reflexivity|lra].
  - intros [= H]. lra.
  - intros C. rewrite risk_in_quotient by lra. reflexivity.
Qed.

Lemma positive_baselines_no_zero_division_witness :
  dgt (DFin (0 + (0 + 2 + 2))) (DFin 0) = true /\
  is_nan (risk_in 8 (DFin (0 + (0 + 2 + 2)))) = false.
Proof.
  destruct (positive_baselines_no_zero_division 32 example_fresh
              example_counts example_baselines true
              (example_base example_counts) example_cand2
              (DFin (0 + (0 + 2 + 2)))) as (H1 & _ & H3).
  - apply example_baselines_positive.
  - discriminate.
  - reflexivity.
  - split; [exact H1|apply H3].
Defined.

(** ** When [calculate] has a result *)

(** [submat] on a matrix of [n_rows] rows and [n_cols] columns: every
    column index is checked, and the row indices are checked as soon as
    there is a column. *)
Lemma submat_is_Some {A} (m : list (list A)) (n_rows n_cols : nat)
    (rows cols : uvec) :
  rect m n_rows n_cols ->
  is_Some (submat m rows cols) <->
  Forall (fun c => (c < n_cols)%nat) cols /\
  (cols = [] \/ Forall (fun r => (r < n_rows)%nat) rows).
Proof.
  intros [Hlen Hcols]. unfold submat. rewrite mapM_is_Some.
  assert (Hone : forall c,
            is_Some (col ← m !! c; mapM (fun r => col !! r) rows) <->
            (c < n_cols)%nat /\ Forall (fun r => (r < n_rows)%nat) rows).
  { intros c. destruct (m !! c) as [col|] eqn:Ec; simpl.
    - pose proof (lookup_lt_Some _ _ _ Ec) as Hc.
      assert (Hcol : length col = n_rows)
        by (apply (Forall_lookup_1 (fun col => length col = n_rows) m c col
                     Hcols Ec)).
      rewrite mapM_is_Some. split.
      + intros H. split; [lia|].
        eapply Forall_impl; [exact H|]. intros r Hr. simpl in Hr.
        apply lookup_lt_is_Some in Hr. rewrite Hcol in Hr. exact Hr.
      + intros [_ H]. eapply Forall_impl; [exact H|]. intros r Hr. simpl.
        apply lookup_lt_is_Some. rewrite Hcol. exact Hr.
    - apply lookup_ge_None in Ec. split.
      + intros [? H]. discriminate.
      + intros [Hc _]. lia. }
  split.
  - intros H. split.
    + eapply Forall_impl; [exact H|]. intros c Hc. simpl in Hc.
      apply Hone in Hc. tauto.
    + destruct cols as [|c cols]; [left; reflexivity|right].
      apply Forall_cons in H as [Hc _]. simpl in Hc. apply Hone in Hc. tauto.
  - intros [Hc [->|Hr]]; [constructor|].
    eapply Forall_impl; [exact Hc|]. intros c Hc'. simpl.
    apply Hone. tauto.
Qed.

Lemma int_add_is_Some (a b : Z) :
  is_Some (int_add a b) <-> INT_MIN <= a + b <= INT_MAX.
Proof.
  split.
  - intros [r Hr]. apply int_add_inv in Hr. tauto.
  - intros H. rewrite int_add_Some by exact H. eauto.
Qed.

Lemma candidate_row_is_Some (w : Z) (st : PBPOIabstract) (c : candidate)
    (n_rows n_cols : nat) :
  rect (m_counts st) n_rows n_cols -> rect (m_baselines st) n_rows n_cols ->
  is_Some (candidate_row w st c) <->
  (exists r : nat, last (current_rows c) = Some r /\
     (current_zone c = [] \/ (r < n_rows)%nat)) /\
  Forall (fun loc => (loc < n_cols)%nat) (current_zone c) /\
  INT_MIN <= zone_nr c + 1 <= INT_MAX /\
  INT_MIN <= cand_duration c + 1 <= INT_MAX.
Proof.
  intros Hc Hb. unfold candidate_row, candidate_C, candidate_B, tail1.
  pose proof (submat_is_Some (m_counts st) n_rows n_cols) as HsC.
  pose proof (submat_is_Some (m_baselines st) n_rows n_cols) as HsB.
  pose proof (int_add_is_Some (zone_nr c) 1) as Hz.
  pose proof (int_add_is_Some (cand_duration c) 1) as Hd.
  destruct (last (current_rows c)) as [r|]; simpl.
  2:{ split; [intros [? H]; discriminate|].
      intros [(r & Hr & _) _]. discriminate. }
  specialize (HsC [r] (current_zone c) Hc).
  specialize (HsB [r] (current_zone c) Hb).
  assert (Hrow : (current_zone c = [] \/
                  Forall (fun r0 => (r0 < n_rows)%nat) [r]) <->
                 (current_zone c = [] \/ (r < n_rows)%nat)).
  { rewrite Forall_singleton. reflexivity. }
  destruct (submat (m_counts st) [r] (current_zone c)) as [cs|]; simpl.
  2:{ split; [intros [? H]; discriminate|].
      intros ((r' & [= <-] & Hr) & Hzone & _).
      assert (is_Some (@None (list (list Z)))) as [? H];
        [apply HsC; tauto|discriminate]. }
  destruct (submat (m_baselines st) [r] (current_zone c)) as [bs|]; simpl.
  2:{ split; [intros [? H]; discriminate|].
      intros ((r' & [= <-] & Hr) & Hzone & _).
      assert (is_Some (@None (list (list double)))) as [? H];
        [apply HsB; tauto|discriminate]. }
  assert (HC : Forall (fun loc => (loc < n_cols)%nat) (current_zone c) /\
               (current_zone c = [] \/ (r < n_rows)%nat)).
  { destruct HsC as [HsC _]. destruct (HsC ltac:(eauto)) as [H1 H2].
    split; [exact H1|]. apply Hrow. exact H2. }
  destruct (int_add (zone_nr c) 1) as [zn|]; simpl.
  2:{ split; [intros [? H]; discriminate|].
      intros (_ & _ & H & _). apply Hz in H as [? H]. discriminate. }
  destruct (int_add (cand_duration c) 1) as [du|]; simpl.
  2:{ split; [intros [? H]; discriminate|].
      intros (_ & _ & _ & H). apply Hd in H as [? H]. discriminate. }
  split; [|eauto]. intros _.
  split; [exists r; tauto|]. split; [tauto|].
  split; [apply Hz; eauto|apply Hd; eauto].
Qed.

(** X6: under [store_all], with result vectors of [n] slots and tables of
    [n_rows] rows and [n_cols] columns, [calculate] has a result, and
    exports the computed row at slot [storage_index], whenever
    [current_rows] is not empty and its last entry is a row of the tables,
    every entry of the zone is a column, [zone_nr + 1] and [duration + 1]
    are values of [int], and [storage_index] is a slot. *)
Theorem calculate_defined_store_all (w : Z) (st : PBPOIabstract)
    (c : candidate) (n n_rows n_cols r : nat) :
  store st = Store_all -> obs_slots st n ->
  rect (m_counts st) n_rows n_cols -> rect (m_baselines st) n_rows n_cols ->
  last (current_rows c) = Some r -> (r < n_rows)%nat ->
  Forall (fun loc => (loc < n_cols)%nat) (current_zone c) ->
  INT_MIN <= zone_nr c + 1 <= INT_MAX ->
  INT_MIN <= cand_duration c + 1 <= INT_MAX ->
  0 <= storage_index c < Z.of_nat n ->
  exists (st' : PBPOIabstract) (row : Row),
    calculate_candidate w st c = Some st' /\
    candidate_row w st c = Some row /\
    df_row (get_scan st') (Z.to_nat (storage_index c)) = Some row.
Proof.
  intros Hp Hn Hc Hb Hr Hrow Hzone Hz Hd Hi.
  assert (Hsome : is_Some (candidate_row w st c)).
  { apply (candidate_row_is_Some w st c n_rows n_cols Hc Hb).
    split; [exists r; split; [exact Hr|right; exact Hrow]|].
    split; [exact Hzone|]. split; [exact Hz|exact Hd]. }
  destruct Hsome as [row Hrowc].
  exists (write_obs st (Z.to_nat (storage_index c)) row), row.
  split; [|split; [exact Hrowc|]].
  - rewrite calculate_unfold, Hrowc. simpl. unfold call_store.
    rewrite Hp. apply (store_all_write st n); assumption.
  - rewrite df_row_get_scan. apply (obs_row_write_eq st n); [exact Hn|lia].
Qed.

Lemma example_all_shape :
  store (example_all 32) = Store_all /\ obs_slots (example_all 32) 2 /\
  rect (m_counts (example_all 32)) 2 1 /\
  rect (m_baselines (example_all 32)) 2 1.
Proof. repeat split; repeat constructor. Qed.

Lemma calculate_defined_store_all_witness :
  exists (st' : PBPOIabstract) (row : Row),
    calculate_candidate 32 (example_all 32) example_cand2 = Some st' /\
    candidate_row 32 (example_all 32) example_cand2 = Some row /\
    df_row (get_scan st') 1 = Some row.
Proof.
  destruct example_all_shape as (Hp & Hn & Hc & Hb).
  apply (calculate_defined_store_all 32 (example_all 32) example_cand2
           2 2 1 1 Hp Hn Hc Hb eq_refl).
  - lia.
  - repeat constructor.
  - unfold INT_MIN, INT_MAX. simpl. lia.
  - unfold INT_MIN, INT_MAX. simpl. lia.
  - simpl. lia.
Defined.

(** ** Values of the relative risks and of the score *)

(** X7: for an empty zone [calculate] computes [C = 0] and [B = 0]: the
    in-zone relative risk is NaN (zero divided by zero), the out-of-zone
    relative risk is [1] and the score is minus infinity, whatever the
    tables hold; the row index is not even checked. *)
Theorem empty_zone_row (w : Z) (st : PBPOIabstract) (c : candidate)
    (r : nat) :
  32 <= w -> m_total_count st <= INT_MAX ->
  current_zone c = [] -> last (current_rows c) = Some r ->
  INT_MIN <= zone_nr c < INT_MAX -> INT_MIN <= cand_duration c < INT_MAX ->
  candidate_C w st c = Some 0 /\ candidate_B st c = Some (DFin 0) /\
  candidate_row w st c =
    Some (mkRow (zone_nr c + 1) (cand_duration c + 1) R_NegInf DNaN (DFin 1)).
Proof.
  intros Hw Ht Hzone Hr Hz Hd.
  assert (HC : candidate_C w st c = Some 0).
  { unfold candidate_C, tail1. rewrite Hr, Hzone. reflexivity. }
  assert (HB : candidate_B st c = Some (DFin 0)).
  { unfold candidate_B, tail1. rewrite Hr, Hzone. reflexivity. }
  split; [exact HC|]. split; [exact HB|].
  rewrite (candidate_row_Some w st c 0 (DFin 0) HC HB Hz Hd).
  assert (Hin : risk_in 0 (DFin 0) = DNaN).
  { unfold risk_in, of_Z, ddiv, Rzero.
    destruct (Req_dec_T 0 0); [reflexivity|lra]. }
  assert (Hsc : score w (m_total_count st) 0 (DFin 0) = R_NegInf).
  { apply score_no_excess. unfold of_Z, dgt.
    destruct (Rlt_dec 0 0); [lra|reflexivity]. }
  assert (Hout : risk_out w (m_total_count st) 0 (DFin 0) = DFin 1).
  { unfold risk_out, of_Z, dgt.
    destruct (Rlt_dec 0 (IZR (m_total_count st))) as [Hpos|_];
      [|reflexivity].
    apply lt_IZR in Hpos.
    rewrite Z.sub_0_r, wrap_small by lia.
    simpl. unfold Rzero.
    destruct (Req_dec_T (IZR (m_total_count st) + - 0) 0) as [Heq|Hne].
    - apply IZR_lt in Hpos. lra.
    - f_equal. field. lra. }
  rewrite Hin, Hsc, Hout. reflexivity.
Qed.

Lemma empty_zone_row_witness :
  candidate_row 32 (example_all 32) (mkCandidate 0 0 0 [] [7%nat]) =
    Some (mkRow 1 1 R_NegInf DNaN (DFin 1)).
Proof.
  apply (empty_zone_row 32 (example_all 32) (mkCandidate 0 0 0 [] [7%nat])
           7 ltac:(lia) ltac:(vm_compute; congruence) eq_refl eq_refl).
  - unfold INT_MIN, INT_MAX. simpl. lia.
  - unfold INT_MIN, INT_MAX. simpl. lia.
Defined.

(** * Further properties of the storage functions *)

(** ** [store_all] and the order of the calls *)

Lemma write_obs_commute (st : PBPOIabstract) (i j : nat) (r r' : Row) :
  i <> j ->
  write_obs (write_obs st i r) j r' = write_obs (write_obs st j r') i r.
Proof.
  intros Hij. unfold write_obs. simpl.
  f_equal; apply list_insert_insert_ne; intros Heq; apply Hij;
    symmetry; exact Heq.
Qed.

Lemma store_seq_all_fold (calls : list store_call) (st : PBPOIabstract)
    (n : nat) :
  obs_slots st n ->
  (forall c, c ∈ calls -> 0 <= call_index c < Z.of_nat n) ->
  store_seq store_all st calls = Some (foldl write_call st calls).
Proof.
  revert st. induction calls as [|c calls IH]; intros st Hn Hidx;
    [reflexivity|].
  simpl. unfold apply_store.
  rewrite (store_all_write st n (call_index c) (call_row c) Hn)
    by (apply Hidx; left).
  simpl. apply IH.
  - apply obs_slots_write. exact Hn.
  - intros c' Hc'. apply Hidx. right. exact Hc'.
Qed.

Lemma foldl_write_call_perm (l1 l2 : list store_call) :
  l1 ≡ₚ l2 ->
  NoDup (map call_index l1) -> (forall c, c ∈ l1 -> 0 <= call_index c) ->
  forall st, foldl write_call st l1 = foldl write_call st l2.
Proof.
  induction 1 as [|x l l' Hp IH|x y l|l l' l'' Hp1 IH1 Hp2 IH2];
    intros Hnd Hpos st.
  - reflexivity.
  - simpl in *. apply NoDup_cons in Hnd as [_ Hnd]. apply IH; [exact Hnd|].
    intros c Hc. apply Hpos. right. exact Hc.
  - simpl in *. f_equal. unfold write_call.
    apply NoDup_cons in Hnd as [Hy _].
    assert (Hne : call_index y <> call_index x).
    { intros Heq. apply Hy. rewrite Heq. left. }
    assert (0 <= call_index x) by (apply Hpos; right; left).
    assert (0 <= call_index y) by (apply Hpos; left).
    apply write_obs_commute. lia.
  - rewrite IH1 by assumption. apply IH2.
    + rewrite <- Hp1. exact Hnd.
    + intros c Hc. apply Hpos. rewrite Hp1. exact Hc.
Qed.

(** X10: under [store_all] the order of the calls does not matter: two
    sequences of calls with the same calls in a different order, all with
    distinct slots inside the vectors, leave the same object, hence the
    same exported table. *)
Theorem store_all_order_independent (st : PBPOIabstract) (n : nat)
    (calls calls' : list store_call) :
  obs_slots st n -> calls ≡ₚ calls' -> NoDup (map call_index calls) ->
  (forall c, c ∈ calls -> 0 <= call_index c < Z.of_nat n) ->
  exists st' : PBPOIabstract,
    store_seq store_all st calls = Some st' /\
    store_seq store_all st calls' = Some st'.
Proof.
  intros Hn Hperm Hnd Hidx. exists (foldl write_call st calls). split.
  - apply (store_seq_all_fold calls st n Hn Hidx).
  - rewrite (foldl_write_call_perm calls calls' Hperm Hnd).
    + apply (store_seq_all_fold calls' st n Hn).
      intros c Hc. apply Hidx. rewrite Hperm. exact Hc.
    + intros c Hc. specialize (Hidx c Hc). lia.
Qed.

Lemma store_all_order_independent_witness :
  exists st' : PBPOIabstract,
    store_seq store_all (example_all 32)
      [mkCall 0 (call_row example_call1); mkCall 1 (call_row example_call2)]
      = Some st' /\
    store_seq store_all (example_all 32)
      [mkCall 1 (call_row example_call2); mkCall 0 (call_row example_call1)]
      = Some st'.
Proof.
  apply (store_all_order_independent (example_all 32) 2).
  - repeat split.
  - apply perm_swap.
  - simpl. apply NoDup_cons. split; [|apply NoDup_singleton].
    intros H. apply list_elem_of_singleton in H. discriminate.
  - intros c Hc. apply elem_of_cons in Hc as [->|Hc]; [simpl; lia|].
    apply list_elem_of_singleton in Hc as ->. simpl; lia.
Defined.

(** ** The retained score and the order of the calls *)

Lemma dgt_antisym (a b : double) :
  dgt a b = false -> dgt b a = false ->
  is_nan a = false -> is_nan b = false -> a = b.
Proof.
  destruct a as [|[]|a], b as [|[]|b]; simpl; try congruence.
  destruct (Rlt_dec b a), (Rlt_dec a b); try congruence.
  intros _ _ _ _. f_equal. lra.
Qed.

Lemma dgt_true_not_nan (a b : double) : dgt a b = true -> is_nan a = false.
Proof. destruct a; [discriminate|reflexivity|reflexivity]. Qed.

Lemma running_max_score_perm (r0 : Row) (l1 l2 : list Row) :
  l1 ≡ₚ l2 ->
  row_score (running_max r0 l1) = row_score (running_max r0 l2).
Proof.
  intros Hperm.
  destruct (running_max_spec l1 r0) as (A1 & _ & C1).
  destruct (running_max_spec l2 r0) as (A2 & _ & C2).
  set (r1 := running_max r0 l1) in *. set (r2 := running_max r0 l2) in *.
  destruct C1 as [[E1 L1]|(k1 & K1 & G1 & _)],
           C2 as [[E2 L2]|(k2 & K2 & G2 & _)].
  - rewrite E1, E2. reflexivity.
  - apply list_elem_of_lookup_2 in K2. rewrite <- Hperm in K2.
    rewrite (L1 r2 K2) in G2. discriminate.
  - apply list_elem_of_lookup_2 in K1. rewrite Hperm in K1.
    rewrite (L2 r1 K1) in G1. discriminate.
  - apply list_elem_of_lookup_2 in K1, K2.
    apply dgt_antisym.
    + apply A2. rewrite <- Hperm. exact K1.
    + apply A1. rewrite Hperm. exact K2.
    + eapply dgt_true_not_nan. exact G1.
    + eapply dgt_true_not_nan. exact G2.
Qed.

(** X11: under [store_max] and under [store_sim] the retained score does
    not depend on the order of the calls: two sequences with the same
    calls in a different order end with the same score in the slot of the
    maximum (the other four fields may differ when scores tie). *)
Theorem retained_score_order_independent (st : PBPOIabstract) (n : nat)
    (calls calls' : list store_call) :
  retain_mode st n -> calls ≡ₚ calls' ->
  exists (st1 st2 : PBPOIabstract) (r1 r2 : Row),
    store_seq (store_fun (store st)) st calls = Some st1 /\
    store_seq (store_fun (store st)) st calls' = Some st2 /\
    retained st1 = Some r1 /\ retained st2 = Some r2 /\
    row_score r1 = row_score r2.
Proof.
  intros Hmode Hperm.
  destruct (retain_seq st n calls Hmode) as (r0 & st1 & H0 & Hs1 & Hr1 & _).
  destruct (retain_seq st n calls' Hmode)
    as (r0' & st2 & H0' & Hs2 & Hr2 & _).
  rewrite H0 in H0'. injection H0' as <-.
  exists st1, st2, (running_max r0 (map call_row calls)),
    (running_max r0 (map call_row calls')).
  repeat split; try assumption.
  apply running_max_score_perm. by apply fmap_Permutation.
Qed.

Lemma retained_score_order_independent_witness :
  exists (st1 st2 : PBPOIabstract) (r1 r2 : Row),
    store_seq store_max (example_max 32) [example_call1; example_call2]
      = Some st1 /\
    store_seq store_max (example_max 32) [example_call2; example_call1]
      = Some st2 /\
    retained st1 = Some r1 /\ retained st2 = Some r2 /\
    row_score r1 = row_score r2.
Proof.
  apply (retained_score_order_independent (example_max 32) 0).
  - left. repeat split.
  - apply perm_swap.
Defined.

(** ** NaN scores *)

Lemma retain_seq_blocked (st : PBPOIabstract) (n : nat) (r0 : Row)
    (calls : list store_call) :
  retain_mode st n -> retained st = Some r0 ->
  (forall c, c ∈ calls ->
     dgt (row_score (call_row c)) (row_score r0) = false) ->
  store_seq (store_fun (store st)) st calls = Some st.
Proof.
  intros Hmode H0 Hall.
  destruct (retain_seq st n [] Hmode) as (r0' & _ & H0' & _ & _ & Hstep).
  rewrite H0 in H0'. injection H0' as <-.
  induction calls as [|c calls IH]; [reflexivity|].
  simpl. rewrite Hstep by (apply Hall; left). simpl.
  apply IH. intros c' Hc'. apply Hall. right. exact Hc'.
Qed.

(** X12: NaN and the strict comparison of [store_max] and [store_sim].  A
    call whose score is NaN leaves the object as it is; and when the slot
    of the maximum holds a NaN score, no sequence of calls, whatever the
    scores, ever changes the object. *)
Theorem nan_scores_are_inert (st : PBPOIabstract) (n : nat) :
  retain_mode st n ->
  (forall c : store_call,
     is_nan (row_score (call_row c)) = true ->
     apply_store (store_fun (store st)) st c = Some st) /\
  (forall (r0 : Row) (calls : list store_call),
     retained st = Some r0 -> is_nan (row_score r0) = true ->
     store_seq (store_fun (store st)) st calls = Some st).
Proof.
  intros Hmode. split.
  - intros c Hc.
    destruct (retain_seq st n [] Hmode) as (r0 & _ & _ & _ & _ & Hstep).
    apply Hstep. destruct (row_score (call_row c)); try discriminate.
    reflexivity.
  - intros r0 calls H0 Hnan.
    apply (retain_seq_blocked st n r0 calls Hmode H0).
    intros c _. destruct (row_score r0); try discriminate.
    destruct (row_score (call_row c)) as [|[]|]; reflexivity.
Qed.

Lemma nan_scores_are_inert_witness :
  apply_store store_max (example_max 32)
    (mkCall 0 (mkRow 1 2 DNaN (DFin 2) (DFin 0)))
  = Some (example_max 32).
Proof.
  assert (Hmode : retain_mode (example_max 32) 0) by (left; repeat split).
  destruct (nan_scores_are_inert (example_max 32) 0 Hmode) as [H _].
  apply (H (mkCall 0 (mkRow 1 2 DNaN (DFin 2) (DFin 0)))). reflexivity.
Defined.

(** ** What a scan leaves alone *)

Lemma vec_set_inv {A} (l l' : list A) (i : Z) (v : A) :
  vec_set l i v = Some l' ->
  0 <= i < Z.of_nat (length l) /\ l' = <[Z.to_nat i := v]> l.
Proof.
  unfold vec_set. case_bool_decide; [|done]. intros [= <-]. done.
Qed.

Lemma store_fun_frame (p : store_ptr) (st st' : PBPOIabstract) (i : Z)
    (s a b : double) (z d : Z) :
  store_fun p st i s a b z d = Some st' ->
  vector_sizes st' = vector_sizes st /\
  (p = Store_sim -> get_scan st' = get_scan st) /\
  (p <> Store_sim -> get_mcsim st' = get_mcsim st).
Proof.
  destruct p; simpl; unfold store_all, store_max, store_sim; intros H.
  - repeat (match type of H with
            | context [vec_set ?l ?i ?v] =>
                let E := fresh "E" in
                destruct (vec_set l i v) eqn:E;
                [apply vec_set_inv in E as [_ ->]|]
            end; simpl in H; try discriminate).
    injection H as <-. unfold vector_sizes. simpl.
    rewrite !length_insert. repeat split; congruence.
  - destruct (vec_get (m_scores st) 0) as [cur|]; simpl in H;
      [|discriminate].
    destruct (dgt s cur).
    + repeat (match type of H with
              | context [vec_set ?l ?i ?v] =>
                  let E := fresh "E" in
                  destruct (vec_set l i v) eqn:E;
                  [apply vec_set_inv in E as [_ ->]|]
              end; simpl in H; try discriminate).
      injection H as <-. unfold vector_sizes. simpl.
      rewrite !length_insert. repeat split; congruence.
    + injection H as <-. repeat split.
  - destruct (vec_get (sim_scores st) (m_mcsim_index st)) as [cur|];
      simpl in H; [|discriminate].
    destruct (dgt s cur).
    + repeat (match type of H with
              | context [vec_set ?l ?i ?v] =>
                  let E := fresh "E" in
                  destruct (vec_set l i v) eqn:E;
                  [apply vec_set_inv in E as [_ ->]|]
              end; simpl in H; try discriminate).
      injection H as <-. unfold vector_sizes. simpl.
      rewrite !length_insert. repeat split; congruence.
    + injection H as <-. repeat split.
Qed.

Lemma scan_frame (w : Z) (cs : list candidate) (st st' : PBPOIabstract) :
  scan w st cs = Some st' ->
  vector_sizes st' = vector_sizes st /\
  (store st = Store_sim -> get_scan st' = get_scan st) /\
  (store st <> Store_sim -> get_mcsim st' = get_mcsim st).
Proof.
  revert st. induction cs as [|c cs IH]; intros st; simpl.
  - intros [= <-]. repeat split.
  - destruct (calculate_candidate w st c) as [st1|] eqn:E; simpl;
      [|discriminate].
    intros Hscan. pose proof (calculate_setup w st st1 c E) as Hsetup.
    rewrite calculate_unfold in E.
    destruct (candidate_row w st c) as [r|]; simpl in E; [|discriminate].
    apply store_fun_frame in E as (Hsz & Hsim & Hobs).
    destruct (IH st1 Hscan) as (Hsz' & Hsim' & Hobs').
    assert (Hst : store st1 = store st) by apply Hsetup.
    rewrite Hst in Hsim', Hobs'.
    split; [congruence|]. split.
    + intros Hp. rewrite Hsim' by exact Hp. apply Hsim. exact Hp.
    + intros Hp. rewrite Hobs' by exact Hp. apply Hobs. exact Hp.
Qed.

(** X13: [set_sim_store_fun] selects [store_sim] and changes nothing
    else; every scan that follows leaves the observed-data vectors, and
    so the table exported by [get_scan], as they are, and [store_sim]
    stays selected. *)
Theorem simulation_keeps_observed (w : Z) (st st' : PBPOIabstract)
    (cs : list candidate) :
  scan w (set_sim_store_fun st) cs = Some st' ->
  store (set_sim_store_fun st) = Store_sim /\
  get_scan (set_sim_store_fun st) = get_scan st /\
  get_mcsim (set_sim_store_fun st) = get_mcsim st /\
  m_counts (set_sim_store_fun st) = m_counts st /\
  m_baselines (set_sim_store_fun st) = m_baselines st /\
  m_total_count (set_sim_store_fun st) = m_total_count st /\
  m_mcsim_index (set_sim_store_fun st) = m_mcsim_index st /\
  get_scan st' = get_scan st /\ store st' = Store_sim.
Proof.
  intros Hscan.
  destruct (scan_frame w cs _ st' Hscan) as (_ & Hsim & _).
  pose proof (scan_setup w cs _ st' Hscan) as Hsetup.
  repeat split.
  - apply Hsim. reflexivity.
  - destruct Hsetup as (_ & _ & _ & _ & _ & _ & _ & ->). reflexivity.
Qed.

Lemma simulation_keeps_observed_witness :
  exists st', scan 32 (set_sim_store_fun (example_max 32))
                [example_cand1; example_cand2] = Some st' /\
    get_scan st' = get_scan (example_max 32).
Proof.
  assert (Hcs : Forall (fun c => is_Some
                          (candidate_row 32
                             (set_sim_store_fun (example_max 32)) c))
                  [example_cand1; example_cand2]).
  { repeat constructor; eexists; reflexivity. }
  destruct (candidate_rows_exist _ _ _ Hcs) as [rows Hrows].
  pose proof (scan_as_store_seq 32 Store_sim _ rows
                (set_sim_store_fun (example_max 32)) eq_refl Hrows) as Heq.
  destruct (store_seq_sim (zip_with call_of [example_cand1; example_cand2]
                             rows)
              (set_sim_store_fun (example_max 32)) 2
              (mkRow 0 0 R_NegInf (DFin 0) (DFin 0)))
    as (st' & Hs & _); [repeat split|simpl; lia|reflexivity|].
  simpl store_fun in Heq. rewrite Hs in Heq.
  exists st'. split; [exact Heq|].
  apply (simulation_keeps_observed 32 (example_max 32) st'
           [example_cand1; example_cand2] Heq).
Defined.

(** X14: while [store_all] or [store_max] is selected, a scan leaves the
    simulation vectors, and so the table exported by [get_mcsim], as they
    are. *)
Theorem observed_scan_keeps_simulation (w : Z) (st st' : PBPOIabstract)
    (cs : list candidate) :
  store st <> Store_sim -> scan w st cs = Some st' ->
  get_mcsim st' = get_mcsim st.
Proof.
  intros Hp Hscan. destruct (scan_frame w cs st st' Hscan) as (_ & _ & H).
  apply H. exact Hp.
Qed.

(** X15: no call of a storage function and no scan changes the size of
    any of the ten result vectors: the numbers of rows of both exported
    tables are fixed once the object is built. *)
Theorem sizes_are_fixed (w : Z) (st : PBPOIabstract) :
  (forall (p : store_ptr) (i : Z) (s a b : double) (z d : Z)
          (st' : PBPOIabstract),
     store_fun p st i s a b z d = Some st' ->
     vector_sizes st' = vector_sizes st) /\
  (forall (cs : list candidate) (st' : PBPOIabstract),
     scan w st cs = Some st' -> vector_sizes st' = vector_sizes st).
Proof.
  split.
  - intros p i s a b z d st' H. apply (store_fun_frame _ _ _ _ _ _ _ _ _ H).
  - intros cs st' H. apply (scan_frame w cs st st' H).
Qed.

Lemma observed_scan_keeps_simulation_witness :
  exists st', scan 32 (example_max 32) [example_cand1; example_cand2]
              = Some st' /\
    get_mcsim st' = get_mcsim (example_max 32).
Proof.
  assert (Hcs : Forall (fun c => is_Some
                          (candidate_row 32 (example_max 32) c))
                  [example_cand1; example_cand2]).
  { repeat constructor; eexists; reflexivity. }
  destruct (candidate_rows_exist _ _ _ Hcs) as [rows Hrows].
  pose proof (scan_as_store_seq 32 Store_max _ rows (example_max 32)
                eq_refl Hrows) as Heq.
  destruct (store_seq_max (zip_with call_of [example_cand1; example_cand2]
                             rows)
              (example_max 32) 0 (mkRow 0 0 R_NegInf (DFin 0) (DFin 0)))
    as (st' & Hs & _); [repeat split|reflexivity|].
  simpl store_fun in Heq. rewrite Hs in Heq.
  exists st'. split; [exact Heq|].
  apply (observed_scan_keeps_simulation 32 (example_max 32) st'
           [example_cand1; example_cand2]); [discriminate|exact Heq].
Defined.

Lemma set_size_length (fresh : nat -> double) (n : nat) :
  length (set_size fresh n) = n.
Proof. unfold set_size. rewrite length_map. apply length_seq. Qed.

Lemma vector_sizes_slots (st st' : PBPOIabstract) (n k : nat) :
  vector_sizes st' = vector_sizes st ->
  obs_slots st n -> sim_slots st k -> obs_slots st' n /\ sim_slots st' k.
Proof.
  unfold vector_sizes, obs_slots, sim_slots. intros [=] Ho Hs.
  repeat split; intuition congruence.
Qed.

(** X16: when the base-class constructor has sized its three
    observed-data vectors to [m_out_length] and its three simulation
    vectors to [m_num_mcsim], the constructed object has [m_out_length]
    slots in all five observed-data vectors and [m_num_mcsim] slots in all
    five simulation vectors, it selects [store_all] or [store_max] by
    [store_everything], it keeps the raw baselines, and every scan leaves
    these numbers of slots as they are. *)
Theorem constructed_object_slots (w : Z) (fresh : nat -> double)
    (counts : umat) (baselines : mat) (store_everything : bool)
    (base : PBPOIabstract) :
  length (m_scores base) = m_out_length base ->
  length (m_zone_numbers base) = m_out_length base ->
  length (m_durations base) = m_out_length base ->
  length (sim_scores base) = m_num_mcsim base ->
  length (sim_zone_numbers base) = m_num_mcsim base ->
  length (sim_durations base) = m_num_mcsim base ->
  let st := PBPOIabstract_new w fresh counts baselines store_everything base in
  obs_slots st (m_out_length base) /\ sim_slots st (m_num_mcsim base) /\
  store st = (if store_everything then Store_all else Store_max) /\
  m_baselines_orig st = baselines /\
  forall (cs : list candidate) (st' : PBPOIabstract),
    scan w st cs = Some st' ->
    obs_slots st' (m_out_length base) /\ sim_slots st' (m_num_mcsim base).
Proof.
  intros H1 H2 H3 H4 H5 H6 st.
  assert (Ho : obs_slots st (m_out_length base)).
  { unfold obs_slots, st. simpl. rewrite !set_size_length. auto. }
  assert (Hs : sim_slots st (m_num_mcsim base)).
  { unfold sim_slots, st. simpl. rewrite !set_size_length. auto. }
  split; [exact Ho|]. split; [exact Hs|]. split; [reflexivity|].
  split; [reflexivity|].
  intros cs st' Hscan.
  destruct (scan_frame w cs st st' Hscan) as (Hsz & _).
  apply (vector_sizes_slots st st'); assumption.
Qed.

Lemma constructed_object_slots_witness :
  obs_slots (example_max 32) 1 /\ sim_slots (example_max 32) 2.
Proof.
  destruct (constructed_object_slots 32 example_fresh example_counts
              example_baselines false (example_base_max example_counts)
              eq_refl eq_refl eq_refl eq_refl eq_refl eq_refl)
    as (Ho & Hs & _).
  split; [exact Ho|exact Hs].
Defined.

(** ** Cumulative counts along time *)

Lemma sum_list_take_le (col : list Z) (n k : nat) :
  Forall (fun x => 0 <= x) col -> (n <= k)%nat ->
  0 <= sum_list (take n col) <= sum_list (take k col).
Proof.
  intros Hcol Hnk.
  replace k with (n + (k - n))%nat by lia.
  rewrite <- take_take_drop, sum_list_app.
  assert (0 <= sum_list (take n col))
    by (apply sum_list_nonneg, Forall_take; exact Hcol).
  assert (0 <= sum_list (take (k - n) (drop n col)))
    by (apply sum_list_nonneg, Forall_take, Forall_drop; exact Hcol).
  lia.
Qed.

(** X17: when the raw counts of a column are unsigned words whose sum is
    below [2^w], the cumulative column that the constructor builds holds
    the exact partial sums and does not decrease along the rows. *)
Theorem cumulative_counts_monotone (w : Z) (fresh : nat -> double)
    (counts : umat) (baselines : mat) (store_everything : bool)
    (base : PBPOIabstract) (loc r r' : nat) (col : list Z) :
  counts !! loc = Some col -> Forall (fun x => 0 <= x) col ->
  sum_list col < 2 ^ w -> (r <= r')%nat -> (r' < length col)%nat ->
  exists ccol : list Z,
    m_counts (PBPOIabstract_new w fresh counts baselines store_everything
                base) !! loc = Some ccol /\
    ccol !! r = Some (sum_list (take (S r) col)) /\
    ccol !! r' = Some (sum_list (take (S r') col)) /\
    sum_list (take (S r) col) <= sum_list (take (S r') col).
Proof.
  intros Hloc Hcol Hsum Hrr Hr'. simpl. unfold cumsum_u.
  exists (cumsum_col_u w 0 col).
  assert (Hexact : forall k, (k < length col)%nat ->
            cumsum_col_u w 0 col !! k = Some (sum_list (take (S k) col))).
  { intros k Hk. pose proof (cumsum_col_u_lookup w col 0 k Hk) as H.
    rewrite wrap_0 in H. rewrite H. simpl. f_equal. unfold wrap.
    apply Z.mod_small.
    pose proof (sum_list_take_le col (S k) (length col) Hcol ltac:(lia)) as Hle.
    rewrite (take_ge col (length col)) in Hle by lia. lia. }
  split; [|split; [|split]].
  - apply list_lookup_fmap_Some. exists col. split; [reflexivity|exact Hloc].
  - apply Hexact. lia.
  - apply Hexact. exact Hr'.
  - apply (sum_list_take_le col (S r) (S r') Hcol). lia.
Qed.

Lemma cumulative_counts_monotone_witness :
  exists ccol : list Z,
    m_counts (example_all 32) !! 0%nat = Some ccol /\
    ccol !! 0%nat = Some 3 /\ ccol !! 1%nat = Some 8.
Proof.
  destruct (cumulative_counts_monotone 32 example_fresh example_counts
              example_baselines true (example_base example_counts)
              0 0 1 [3; 5] eq_refl)
    as (ccol & H1 & H2 & H3 & _).
  - repeat constructor; lia.
  - vm_compute. reflexivity.
  - lia.
  - simpl. lia.
  - exists ccol. split; [exact H1|]. split; [exact H2|exact H3].
Defined.

Lemma candidate_C_bounds_witness :
  0 <= 8 <= m_total_count (example_all 32).
Proof.
  apply (candidate_C_bounds 32 example_fresh example_counts
           example_baselines true (example_base example_counts)
           example_cand2 8).
  - lia.
  - unfold uword_entries, example_counts.
    repeat constructor; vm_compute; congruence.
  - vm_compute. congruence.
  - simpl. apply NoDup_singleton.
  - reflexivity.
Defined.

(** ** Repeated slots under [store_all] *)

Lemma last_call_at_cons (i : nat) (c : store_call)
    (calls : list store_call) :
  last_call_at i (c :: calls) =
    match last_call_at i calls with
    | Some y => Some y
    | None => if decide (Z.to_nat (call_index c) = i) then Some c else None
    end.
Proof.
  unfold last_call_at. rewrite filter_cons.
  destruct (decide (Z.to_nat (call_index c) = i)).
  - apply last_cons.
  - destruct (last (filter _ calls)); reflexivity.
Qed.

(** X19: under [store_all] a later call overwrites an earlier call with
    the same slot: after any sequence of calls with slots inside the
    vectors, every slot holds the row of the last call that named it, and
    a slot that no call named holds what it held before. *)
Theorem store_all_last_write_wins (calls : list store_call)
    (st : PBPOIabstract) (n : nat) :
  obs_slots st n ->
  (forall c, c ∈ calls -> 0 <= call_index c < Z.of_nat n) ->
  exists st' : PBPOIabstract,
    store_seq store_all st calls = Some st' /\
    forall i : nat, (i < n)%nat ->
      obs_row st' i =
        match last_call_at i calls with
        | Some c => Some (call_row c)
        | None => obs_row st i
        end.
Proof.
  revert st. induction calls as [|c calls IH]; intros st Hn Hidx.
  - exists st. split; [reflexivity|]. intros i _. reflexivity.
  - simpl. unfold apply_store.
    assert (Hc : 0 <= call_index c < Z.of_nat n) by (apply Hidx; left).
    rewrite (store_all_write st n (call_index c) (call_row c) Hn Hc). simpl.
    destruct (IH (write_obs st (Z.to_nat (call_index c)) (call_row c)))
      as (st' & Hs & Hrows).
    + apply obs_slots_write. exact Hn.
    + intros c' Hc'. apply Hidx. right. exact Hc'.
    + exists st'. split; [exact Hs|]. intros i Hi.
      rewrite (Hrows i Hi), last_call_at_cons.
      destruct (last_call_at i calls); [reflexivity|].
      destruct (decide (Z.to_nat (call_index c) = i)) as [<-|Hne].
      * apply (obs_row_write_eq st n); [exact Hn|lia].
      * apply obs_row_write_ne. exact Hne.
Qed.

Lemma store_all_last_write_wins_witness :
  exists st' : PBPOIabstract,
    store_seq store_all (example_all 32) [example_call1; example_call2]
      = Some st' /\
    obs_row st' 0 = Some (call_row example_call2).
Proof.
  destruct (store_all_last_write_wins [example_call1; example_call2]
              (example_all 32) 2) as (st' & Hs & Hrows).
  - repeat split.
  - intros c Hc. apply elem_of_cons in Hc as [->|Hc]; [simpl; lia|].
    apply list_elem_of_singleton in Hc as ->. simpl; lia.
  - exists st'. split; [exact Hs|]. rewrite (Hrows 0%nat) by lia.
    reflexivity.
Defined.

(** X20: [store_max] touches slot 0 of the observed-data vectors and
    nothing else: after any sequence of calls every other slot of the
    observed-data vectors, every slot of the simulation vectors, the
    aggregated tables, the round index and the selected storage function
    are what they were. *)
Theorem store_max_touches_slot_0 (st : PBPOIabstract) (n : nat)
    (calls : list store_call) :
  obs_slots st (S n) ->
  exists st' : PBPOIabstract,
    store_seq store_max st calls = Some st' /\
    (forall j : nat, j <> 0%nat -> obs_row st' j = obs_row st j) /\
    (forall j : nat, sim_row st' j = sim_row st j) /\
    get_mcsim st' = get_mcsim st /\
    same_setup st st'.
Proof.
  intros Hn.
  destruct (obs_row_Some st (S n) 0 Hn) as [r0 H0]; [lia|].
  destruct (store_seq_max calls st n r0 Hn H0)
    as (st' & Hs & _ & _ & Hother & Hsim & Hsetup).
  exists st'. split; [exact Hs|]. split; [exact Hother|].
  split; [exact Hsim|]. split; [|exact Hsetup].
  clear -Hs. revert st Hs. induction calls as [|c calls IH]; intros st Hs.
  - injection Hs as <-. reflexivity.
  - simpl in Hs. unfold apply_store in Hs.
    destruct (store_max st (call_index c) (row_score (call_row c))
                (relrisk_in (call_row c)) (relrisk_out (call_row c))
                (zone (call_row c)) (duration (call_row c)))
      as [st1|] eqn:E; simpl in Hs; [|discriminate].
    rewrite (IH st1 Hs).
    apply (store_fun_frame Store_max) in E as (_ & _ & H).
    apply H. discriminate.
Qed.

Lemma store_max_touches_slot_0_witness :
  exists st' : PBPOIabstract,
    store_seq store_max (example_max 32) [example_call1; example_call2]
      = Some st' /\
    get_mcsim st' = get_mcsim (example_max 32).
Proof.
  destruct (store_max_touches_slot_0 (example_max 32) 0
              [example_call1; example_call2])
    as (st' & Hs & _ & _ & Hm & _).
  - repeat split.
  - exists st'. split; [exact Hs|exact Hm].
Defined.

(** ** A NaN among the raw baselines *)

Lemma dadd_nan_r (a : double) : dadd a DNaN = DNaN.
Proof. destruct a; reflexivity. Qed.

Lemma cumsum_col_d_nan_acc (col : list double) (r : nat) (e : double) :
  cumsum_col_d DNaN col !! r = Some e -> e = DNaN.
Proof.
  revert r. induction col as [|x col IH]; intros r Hr;
    [destruct r; discriminate|].
  simpl in Hr. destruct r as [|r]; simpl in Hr.
  - injection Hr as <-. reflexivity.
  - apply (IH r Hr).
Qed.

Lemma cumsum_col_d_nan (col : list double) (acc : double) (t r : nat)
    (e : double) :
  col !! t = Some DNaN -> (t <= r)%nat ->
  cumsum_col_d acc col !! r = Some e -> e = DNaN.
Proof.
  revert acc t r. induction col as [|x col IH]; intros acc t r Ht Htr Hr;
    [destruct t; discriminate|].
  simpl in Hr. destruct t as [|t]; simpl in Ht.
  - injection Ht as ->. rewrite dadd_nan_r in Hr.
    destruct r as [|r]; simpl in Hr.
    + injection Hr as <-. reflexivity.
    + apply (cumsum_col_d_nan_acc col r e Hr).
  - destruct r as [|r]; [lia|]. simpl in Hr.
    apply (IH _ t r Ht ltac:(lia) Hr).
Qed.

Lemma foldl_dadd_nan_acc (l : list double) : foldl dadd DNaN l = DNaN.
Proof. induction l as [|x l IH]; [reflexivity|exact IH]. Qed.

Lemma foldl_dadd_nan (l : list double) (a : double) :
  DNaN ∈ l -> foldl dadd a l = DNaN.
Proof.
  revert a. induction l as [|x l IH]; intros a Hin; [inversion Hin|].
  apply elem_of_cons in Hin as [<-|Hin]; simpl.
  - rewrite dadd_nan_r. apply foldl_dadd_nan_acc.
  - apply IH. exact Hin.
Qed.

(** X21: a NaN among the raw baselines reaches every candidate whose zone
    holds its location and whose last row is at or after its row: the
    in-zone baseline [B] is NaN, so the in-zone relative risk is NaN, the
    out-of-zone relative risk is [1] and the score is minus infinity,
    whatever the counts are. *)
Theorem nan_baseline_candidate (w : Z) (fresh : nat -> double)
    (counts : umat) (baselines : mat) (store_everything : bool)
    (base : PBPOIabstract) (c : candidate) (B : double)
    (loc t r : nat) (raw : list double) :
  baselines !! loc = Some raw -> raw !! t = Some DNaN ->
  loc ∈ current_zone c -> last (current_rows c) = Some r -> (t <= r)%nat ->
  candidate_B
    (PBPOIabstract_new w fresh counts baselines store_everything base) c
    = Some B ->
  B = DNaN /\
  forall total C : Z,
    risk_in C B = DNaN /\ risk_out w total C B = DFin 1 /\
    score w total C B = R_NegInf.
Proof.
  intros Hraw Ht Hloc Hr Htr HB.
  assert (HBnan : B = DNaN).
  { unfold candidate_B, tail1 in HB. simpl in HB. rewrite Hr in HB.
    simpl in HB.
    destruct (submat (cumsum_d baselines) [r] (current_zone c)) as [cs|] eqn:E;
      simpl in HB; [|discriminate].
    injection HB as <-. apply submat_row_entries in E.
    unfold accu_d. apply foldl_dadd_nan.
    induction E as [|loc' col' zone cs (col & e & Hcol & He & ->) _ IH];
      [inversion Hloc|].
    simpl. apply elem_of_cons in Hloc as [<-|Hloc].
    - unfold cumsum_d in Hcol.
      apply list_lookup_fmap_Some in Hcol as (raw' & -> & Hraw').
      assert (raw' = raw) as ->.
      { pose proof Hraw as H1. pose proof Hraw' as H2. unfold mat in *.
        rewrite H1 in H2. by injection H2. }
      rewrite (cumsum_col_d_nan raw (DFin 0) t r e Ht Htr He).
      apply elem_of_cons. left. reflexivity.
    - apply elem_of_cons. right. apply IH. exact Hloc. }
  split; [exact HBnan|]. subst B. intros total C.
  repeat split.
Qed.

Lemma nan_baseline_candidate_witness :
  score 32 8 8 DNaN = R_NegInf /\ risk_out 32 8 8 DNaN = DFin 1.
Proof.
  destruct (nan_baseline_candidate 32 example_fresh example_counts
              nan_baselines true (example_base example_counts)
              example_cand2 DNaN 0 1 1 [DFin 2; DNaN]
              eq_refl eq_refl) as [_ H].
  - simpl. left.
  - reflexivity.
  - lia.
  - reflexivity.
  - destruct (H 8 8) as (_ & Hout & Hsc). split; [exact Hsc|exact Hout].
Defined.

(** * The relative risks and the score that [calculate] stores *)



Lemma example_all_cand1 :
  candidate_C 32 (example_all 32) example_cand1 = Some 3 /\
  candidate_B (example_all 32) example_cand1 = Some (DFin (0 + (0 + 2))) /\
  INT_MIN <= zone_nr example_cand1 < INT_MAX /\
  INT_MIN <= cand_duration example_cand1 < INT_MAX.
Proof.
  split; [reflexivity|]. split; [reflexivity|].
  unfold INT_MIN, INT_MAX. simpl. lia.
Qed.





(** X8: for a candidate with excess over a positive baseline,
    [0 < B < C <= total], the relative risks that [calculate] computes
    are not NaN, the in-zone relative risk is at least one and the
    out-of-zone relative risk lies between zero and one; the out-of-zone
    relative risk is zero exactly when [C = total]. *)
Theorem excess_risk_bounds (w : Z) (st : PBPOIabstract) (c : candidate)
    (C : Z) (b : R) :
  32 <= w ->
  candidate_C w st c = Some C -> candidate_B st c = Some (DFin b) ->
  INT_MIN <= zone_nr c < INT_MAX -> INT_MIN <= cand_duration c < INT_MAX ->
  (0 < b)%R -> (b < IZR C)%R ->
  C <= m_total_count st -> m_total_count st <= INT_MAX ->
  exists r : Row,
    candidate_row w st c = Some r /\
    is_nan (relrisk_in r) = false /\
    dgt (DFin 1) (relrisk_in r) = false /\
    is_nan (relrisk_out r) = false /\
    dgt (DFin 0) (relrisk_out r) = false /\
    dgt (relrisk_out r) (DFin 1) = false /\
    (relrisk_out r = DFin 0 <-> C = m_total_count st).
Proof.
  intros Hw HC HB Hz Hd Hb HbC HCt Ht.
  set (total := m_total_count st) in *.
  assert (HC0 : 0 < C) by (apply lt_IZR; lra).
  assert (HCtR : (IZR C <= IZR total)%R) by (apply IZR_le; lia).
  eexists. split; [apply (candidate_row_Some w st c C (DFin b)); assumption|].
  cbn [relrisk_in relrisk_out]. fold total.
  assert (Hin : risk_in C (DFin b) = DFin (IZR C / b))
    by (apply risk_in_quotient; lra).
  assert (Hout : risk_out w total C (DFin b)
                 = DFin ((IZR total - IZR C) / (IZR total - b))).
  { rewrite (risk_out_unfold w total C (DFin b)) by lia.
    unfold of_Z. simpl. rewrite minus_IZR.
    destruct (Rlt_dec b (IZR total)); [|lra].
    unfold Rzero. destruct (Req_dec_T (IZR total + - b) 0); [lra|].
    reflexivity. }
  assert (Hden : (0 < IZR total - b)%R) by lra.
  assert (Hx : (1 < IZR C / b)%R).
  { apply (Rmult_lt_reg_r b); [exact Hb|].
    unfold Rdiv. rewrite Rmult_assoc, Rinv_l by lra. lra. }
  assert (Hy0 : (0 <= (IZR total - IZR C) / (IZR total - b))%R).
  { unfold Rdiv. apply Rmult_le_pos; [lra|].
    left. apply Rinv_0_lt_compat. lra. }
  assert (Hy1 : ((IZR total - IZR C) / (IZR total - b) < 1)%R).
  { apply (Rmult_lt_reg_r (IZR total - b)); [exact Hden|].
    unfold Rdiv. rewrite Rmult_assoc, Rinv_l by lra. lra. }
  rewrite Hin, Hout. simpl.
  split; [reflexivity|].
  split; [destruct (Rlt_dec (IZR C / b) 1); [lra|reflexivity]|].
  split; [reflexivity|].
  split.
  { destruct (Rlt_dec ((IZR total - IZR C) / (IZR total - b)) 0);
      [lra|reflexivity]. }
  split.
  { destruct (Rlt_dec 1 ((IZR total - IZR C) / (IZR total - b)));
      [lra|reflexivity]. }
  split.
  - intros [= Hy].
    assert (Hnum : (IZR total - IZR C = 0)%R).
    { apply (Rmult_eq_compat_r (IZR total - b)) in Hy.
      unfold Rdiv in Hy. rewrite Rmult_assoc, Rinv_l in Hy by lra. lra. }
    apply eq_IZR. lra.
  - intros ->. f_equal. unfold Rdiv. rewrite Rminus_diag. apply Rmult_0_l.
Qed.

Lemma excess_risk_bounds_witness :
  exists r : Row,
    candidate_row 32 (example_all 32) example_cand1 = Some r /\
    dgt (DFin 1) (relrisk_in r) = false /\
    dgt (relrisk_out r) (DFin 1) = false.
Proof.
  destruct example_all_cand1 as (HC & HB & Hz & Hd).
  destruct (excess_risk_bounds 32 (example_all 32) example_cand1 3
              (0 + (0 + 2)) ltac:(lia) HC HB Hz Hd)
    as (r & Hr & _ & H1 & _ & _ & H2 & _).
  - lra.
  - lra.
  - change (m_total_count (example_all 32)) with 8. lia.
  - change (m_total_count (example_all 32)) with 8. unfold INT_MAX. lia.
  - exists r. split; [exact Hr|]. split; [exact H1|exact H2].
Defined.

(** X9: a candidate with excess strictly inside the total,
    [0 < B < C < total], has a score that is not NaN and compares greater
    than minus infinity; so, under [store_max] with a score of minus
    infinity in slot 0, [calculate] stores the candidate's row in
    slot 0. *)
Theorem interior_excess_is_retained (w : Z) (st : PBPOIabstract)
    (c : candidate) (n : nat) (C : Z) (b : R) :
  32 <= w -> store st = Store_max -> obs_slots st (S n) ->
  m_scores st !! 0%nat = Some R_NegInf ->
  candidate_C w st c = Some C -> candidate_B st c = Some (DFin b) ->
  INT_MIN <= zone_nr c < INT_MAX -> INT_MIN <= cand_duration c < INT_MAX ->
  (0 < b)%R -> (b < IZR C)%R ->
  C < m_total_count st -> m_total_count st <= INT_MAX ->
  exists (st' : PBPOIabstract) (r : Row),
    candidate_row w st c = Some r /\
    is_nan (row_score r) = false /\
    dgt (row_score r) R_NegInf = true /\
    calculate_candidate w st c = Some st' /\
    df_row (get_scan st') 0 = Some r.
Proof.
  intros Hw Hp Hn Hcur HC HB Hz Hd Hb HbC HCt Ht.
  pose proof (candidate_row_Some w st c C (DFin b) HC HB Hz Hd) as Hrow.
  pose proof (score_interior w (m_total_count st) C b Hw Hb HbC HCt Ht)
    as Hscore.
  set (r := mkRow (zone_nr c + 1) (cand_duration c + 1)
              (score w (m_total_count st) C (DFin b)) (risk_in C (DFin b))
              (risk_out w (m_total_count st) C (DFin b))) in *.
  assert (Hgt : dgt (row_score r) R_NegInf = true).
  { unfold r. cbn [row_score]. rewrite Hscore. reflexivity. }
  exists (write_obs st 0 r), r.
  split; [exact Hrow|]. split.
  { unfold r. cbn [row_score]. rewrite Hscore. reflexivity. }
  split; [exact Hgt|]. split.
  - assert (Hcalc : calculate_candidate w st c =
              store_max st (storage_index c) (row_score r) (relrisk_in r)
                (relrisk_out r) (zone r) (duration r)).
    { rewrite calculate_unfold, Hrow. unfold call_store. rewrite Hp.
      reflexivity. }
    rewrite Hcalc.
    rewrite (store_max_cases st n (storage_index c) r R_NegInf Hn Hcur).
    rewrite Hgt. reflexivity.
  - rewrite df_row_get_scan. apply (obs_row_write_eq st (S n)); [exact Hn|lia].
Qed.

Lemma interior_excess_is_retained_witness :
  exists (st' : PBPOIabstract) (r : Row),
    calculate_candidate 32 (example_max 32) example_cand1 = Some st' /\
    df_row (get_scan st') 0 = Some r /\
    zone r = 1 /\ dgt (row_score r) R_NegInf = true.
Proof.
  destruct (interior_excess_is_retained 32 (example_max 32) example_cand1
              0 3 (0 + (0 + 2)) ltac:(lia) eq_refl)
    as (st' & r & Hrow & _ & Hgt & Hcalc & Hexp).
  - repeat split.
  - reflexivity.
  - reflexivity.
  - reflexivity.
  - unfold INT_MIN, INT_MAX. simpl. lia.
  - unfold INT_MIN, INT_MAX. simpl. lia.
  - lra.
  - lra.
  - change (m_total_count (example_max 32)) with 8. lia.
  - change (m_total_count (example_max 32)) with 8. unfold INT_MAX. lia.
  - exists st', r. split; [exact Hcalc|]. split; [exact Hexp|].
    split; [|exact Hgt].
    change (candidate_row 32 (example_max 32) example_cand1)
      with (Some (mkRow 1 1
                    (score 32 8 3 (DFin (0 + (0 + 2))))
                    (risk_in 3 (DFin (0 + (0 + 2))))
                    (risk_out 32 8 3 (DFin (0 + (0 + 2)))))) in Hrow.
    injection Hrow as <-. reflexivity.
Defined.
